(** * GSAPAnimationLibrary: a shallow embedding of [gsap-animation-library.js]

    The class [GSAPAnimationLibrary] wraps the GSAP engine: every preset is a
    short sequence of engine calls, plus bookkeeping in two fields of the
    instance, the Set [activeAnimations] and the Map [timelines].

    The embedding has three layers:
    - JavaScript values, truthiness, [||] and unary minus, as far as the
      class uses them;
    - the engine (the global [gsap]), as a store of animation objects and a
      chronological log of the calls made to it;
    - the methods of the class, as computations over the engine and the two
      fields, written in a state-and-exception monad.

    [scrollTrigger], which only forwards to the ScrollTrigger plugin, is
    embedded apart, as a function from its arguments to the call it
    makes. *)

From Stdlib Require Import QArith.
From stdpp Require Import gmap strings list fin_maps.

Local Open Scope string_scope.
Local Open Scope list_scope.

(** ** JavaScript values *)

(** Numbers.  The class passes numbers on to the engine and does no
    arithmetic on them except unary minus ([-distance], [-intensity]), which
    is exact.  A finite number is therefore represented by the rational that
    its literal denotes ([0.1] is [1 # 10], [1.5] is [15 # 10]); NaN and the
    infinities are kept apart because [||] and unary minus treat them
    apart.  The sign of zero is not represented. *)
Inductive num :=
  | NaN
  | Infinity (negative : bool)
  | Fin (q : Q).

Definition handle := nat.

Inductive value :=
  | VUndefined
  | VNull
  | VBool (b : bool)
  | VNum (n : num)
  | VStr (s : string)
  | VFun (f : nat)            (* a callback, by identity *)
  | VAnim (h : handle)        (* a Tween or Timeline object, by identity *)
  | VObject (o : nat) (has_kill : bool).
                              (* any other object, by identity, with or
                                 without a callable [kill] property (the
                                 object that [ScrollTrigger.create] returns
                                 has one) *)

Definition JInt (z : Z) : value := VNum (Fin (inject_Z z)).
Definition JDec (n : Z) (d : positive) : value := VNum (Fin (n # d)).

(** An object literal / options record: own properties by name. *)
Abbreviation object := (gmap string value).

(** [o.k]: a missing property reads as [undefined]. *)
Definition get (o : object) (k : string) : value := default VUndefined (o !! k).

(** ToBoolean. *)
Definition truthy (v : value) : bool :=
  match v with
  | VUndefined | VNull => false
  | VBool b => b
  | VNum NaN => false
  | VNum (Infinity _) => true
  | VNum (Fin q) => negb (Qnum q =? 0)%Z
  | VStr s => negb (String.eqb s "")
  | VFun _ | VAnim _ | VObject _ _ => true
  end.

(** [a || b]. *)
Definition js_or (a b : value) : value := if truthy a then a else b.

(** Unary minus on a number. *)
Definition num_neg (n : num) : num :=
  match n with
  | NaN => NaN
  | Infinity s => Infinity (negb s)
  | Fin q => Fin (Qopp q)
  end.

(** ** Errors and the monad of methods *)

Inductive js_error :=
  | TypeError (msg : string)
  | Error (msg : string).

Inductive result (A : Type) :=
  | Ok (a : A)
  | Throw (e : js_error).
Arguments Ok {A} a.
Arguments Throw {A} e.

(** ** The engine *)

(** A DOM element.  [in_document] tells whether the element is attached to
    the document, which is what the selector ["*"] matches. *)
Record element := { el_id : nat; in_document : bool }.

Inductive kind := Tween | Timeline.

Record anim := {
  a_kind : kind;
  a_targets : list element;       (* targets of a tween; [] for a timeline *)
  a_vars : object;                (* the vars object it was created with *)
  a_parent : option handle;       (* the timeline a tween was added to *)
  a_killed : bool;
  a_paused : bool;
  a_reversed : bool;
  a_completed : bool              (* has run to its end *)
}.

(** Calls received by the engine, with the object each one created, and
    calls of [kill()] on an object that is not the engine's. *)
Inductive call :=
  | GsapSet (targets : list element) (vars : object)
  | GsapTo (targets : list element) (vars : object) (created : handle)
  | GsapTimeline (vars : object) (created : handle)
  | TimelineTo (tl : handle) (targets : list element) (vars : object)
               (created : handle)
  | Kill (h : handle)
  | KillObject (o : nat)
  | KillTweensOf (selector : string)
  | Play (h : handle)
  | Pause (h : handle)
  | Reverse (h : handle)
  | Restart (h : handle).

(** The engine together with one instance of the class. *)
Record state := {
  (* gsap *)
  next_id : handle;
  anims : gmap handle anim;
  calls : list call;
  (* this *)
  activeAnimations : list handle;     (* a Set, in insertion order *)
  timelines : gmap string handle      (* a Map *)
}.

Definition M (A : Type) : Type := state → result (A * state).

#[export] Instance M_ret : MRet M := λ A a s, Ok (a, s).
#[export] Instance M_bind : MBind M := λ A B f m s,
  match m s with
  | Ok (a, s') => f a s'
  | Throw e => Throw e
  end.

Definition throw {A} (e : js_error) : M A := λ _, Throw e.

Definition set_anims (f : gmap handle anim → gmap handle anim) (s : state) : state :=
  {| next_id := next_id s; anims := f (anims s); calls := calls s;
     activeAnimations := activeAnimations s; timelines := timelines s |}.

Definition log (c : call) : M unit := λ s,
  Ok (tt, {| next_id := next_id s; anims := anims s; calls := calls s ++ [c];
             activeAnimations := activeAnimations s; timelines := timelines s |}).

(** Allocation of a new engine object. *)
Definition new_anim (a : anim) : M handle := λ s,
  let h := next_id s in
  Ok (h, {| next_id := S h; anims := <[h := a]> (anims s); calls := calls s;
            activeAnimations := activeAnimations s; timelines := timelines s |}).

Definition mk_anim (k : kind) (targets : list element) (vars : object)
    (parent : option handle) : anim :=
  {| a_kind := k; a_targets := targets; a_vars := vars; a_parent := parent;
     a_killed := false; a_paused := truthy (get vars "paused");
     a_reversed := false; a_completed := false |}.

(** [gsap.set(targets, vars)] *)
Definition gsap_set (targets : list element) (vars : object) : M unit :=
  log (GsapSet targets vars).

(** [gsap.to(targets, vars)] *)
Definition gsap_to (targets : list element) (vars : object) : M handle :=
  h ← new_anim (mk_anim Tween targets vars None);
  log (GsapTo targets vars h);;
  mret h.

(** [gsap.timeline(vars)] *)
Definition gsap_timeline (vars : object) : M handle :=
  h ← new_anim (mk_anim Timeline [] vars None);
  log (GsapTimeline vars h);;
  mret h.

(** [tl.to(targets, vars)]: appends a tween to the timeline and returns the
    timeline itself, for chaining. *)
Definition timeline_to (tl : handle) (targets : list element) (vars : object)
    : M handle :=
  h ← new_anim (mk_anim Tween targets vars (Some tl));
  log (TimelineTo tl targets vars h);;
  mret tl.

(** [anim.kill()] *)
Definition kill_anim (a : anim) : anim :=
  {| a_kind := a_kind a; a_targets := a_targets a; a_vars := a_vars a;
     a_parent := a_parent a; a_killed := true; a_paused := a_paused a;
     a_reversed := a_reversed a; a_completed := a_completed a |}.

Definition anim_kill (h : handle) : M unit := λ s,
  log (Kill h) (set_anims (alter kill_anim h) s).

(** [gsap.killTweensOf('*')].  The engine resolves the selector string with
    [document.querySelectorAll], so the selected targets are the elements
    attached to the document.  From its root timeline, and recursively from
    the timelines nested in it, it collects the tweens that have a selected
    target, whoever created them, and kills in each of them the animation of
    the selected targets.  Timelines are containers here: the call is never
    applied to a timeline object itself.  In the model a tween counts as
    killed by this call when all of its targets are selected. *)
Definition kill_star (a : anim) : anim :=
  match a_kind a with
  | Timeline => a
  | Tween =>
      if existsb in_document (a_targets a) && forallb in_document (a_targets a)
      then kill_anim a else a
  end.

Definition gsap_killTweensOf_star : M unit := λ s,
  log (KillTweensOf "*") (set_anims (fmap kill_star) s).

(** The engine's ticker bringing an animation to its end.  This is not a
    call of the class; it only marks the object. *)
Definition complete_anim (a : anim) : anim :=
  {| a_kind := a_kind a; a_targets := a_targets a; a_vars := a_vars a;
     a_parent := a_parent a; a_killed := a_killed a; a_paused := a_paused a;
     a_reversed := a_reversed a; a_completed := true |}.

Definition engine_completes (h : handle) : M unit := λ s,
  Ok (tt, set_anims (alter complete_anim h) s).

Section GSAPAnimationLibrary.

(** [tl.play()], [tl.pause()], [tl.reverse()], [tl.restart()] *)
Definition set_playback (paused reversed : bool) (a : anim) : anim :=
  {| a_kind := a_kind a; a_targets := a_targets a; a_vars := a_vars a;
     a_parent := a_parent a; a_killed := a_killed a; a_paused := paused;
     a_reversed := reversed; a_completed := a_completed a |}.

(** A killed animation is off its parent timeline, and the engine puts it
    back when a call moves its playhead to a place from where it has
    something to play.  [restart()] always does: it moves the playhead to
    the start.  For [play()] and [reverse()] it depends on where the
    playhead is, which the embedding does not track, so the answer of the
    engine is left abstract; [pause()] never does. *)
Definition reattach (r : bool) (a : anim) : anim :=
  {| a_kind := a_kind a; a_targets := a_targets a; a_vars := a_vars a;
     a_parent := a_parent a; a_killed := a_killed a && negb r;
     a_paused := a_paused a; a_reversed := a_reversed a;
     a_completed := a_completed a |}.

Variable reattaches : call → state → bool.

Definition anim_play (h : handle) : M unit := λ s,
  log (Play h)
    (set_anims
       (alter (λ a, set_playback false false
                      (reattach (reattaches (Play h) s) a)) h) s).
Definition anim_pause (h : handle) : M unit := λ s,
  log (Pause h)
    (set_anims (alter (λ a, set_playback true (a_reversed a) a) h) s).
Definition anim_reverse (h : handle) : M unit := λ s,
  log (Reverse h)
    (set_anims
       (alter (λ a, set_playback false true
                      (reattach (reattaches (Reverse h) s) a)) h) s).
Definition anim_restart (h : handle) : M unit := λ s,
  log (Restart h)
    (set_anims (alter (λ a, set_playback false false (reattach true a)) h) s).

(** ** The fields of the instance *)

(** [this.activeAnimations]: [add], [delete], [clear], [forEach]. *)
Definition activeAnimations_add (h : handle) : M unit := λ s,
  Ok (tt, {| next_id := next_id s; anims := anims s; calls := calls s;
             activeAnimations :=
               if decide (h ∈ activeAnimations s) then activeAnimations s
               else activeAnimations s ++ [h];
             timelines := timelines s |}).

Definition activeAnimations_delete (h : handle) : M unit := λ s,
  Ok (tt, {| next_id := next_id s; anims := anims s; calls := calls s;
             activeAnimations := filter (λ h', h' ≠ h) (activeAnimations s);
             timelines := timelines s |}).

Definition activeAnimations_clear : M unit := λ s,
  Ok (tt, {| next_id := next_id s; anims := anims s; calls := calls s;
             activeAnimations := []; timelines := timelines s |}).

Fixpoint for_each (f : handle → M unit) (l : list handle) : M unit :=
  match l with
  | [] => mret tt
  | h :: l' => f h;; for_each f l'
  end.

Definition activeAnimations_forEach (f : handle → M unit) : M unit := λ s,
  for_each f (activeAnimations s) s.

(** [this.timelines]: [set], [get]. *)
Definition timelines_set (name : string) (h : handle) : M unit := λ s,
  Ok (tt, {| next_id := next_id s; anims := anims s; calls := calls s;
             activeAnimations := activeAnimations s;
             timelines := <[name := h]> (timelines s) |}).

Definition timelines_get (name : string) : M (option handle) := λ s,
  Ok (timelines s !! name, s).

(** ** The class *)

(** Unary minus converts its operand to a number first.  The conversion of a
    string (StringToNumber of the language) belongs to the host and is left
    abstract. *)
Variable StringToNumber : string → num.

Definition ToNumber (v : value) : num :=
  match v with
  | VUndefined => NaN
  | VNull => Fin 0
  | VBool b => Fin (if b then 1 else 0)
  | VNum n => n
  | VStr s => StringToNumber s
  | VFun _ | VAnim _ | VObject _ _ => NaN
  end.

(** [-v] *)
Definition js_neg (v : value) : value := VNum (num_neg (ToNumber v)).

(** The constructor: fails when the global [gsap] is not defined, otherwise
    starts with an empty Set and an empty Map.  (The registration of the
    ScrollTrigger plugin is not part of the embedding.) *)
Definition constructor (gsap_defined : bool) (s : state) : result state :=
  if gsap_defined then
    Ok {| next_id := next_id s; anims := anims s; calls := calls s;
          activeAnimations := []; timelines := ∅ |}
  else Throw (Error "GSAP is required. Please install gsap: npm install gsap").

Definition defaults : object :=
  {[ "duration" := JInt 1; "ease" := VStr "power2.out"; "delay" := JInt 0;
     "onComplete" := VNull; "onStart" := VNull ]}.

(** The [config] object that [animate] hands to the engine. *)
Definition animate_config (properties options : object) : object :=
  let config := properties ∪ options ∪ defaults in
  let config :=
    if truthy (get options "onStart")
    then <["onStart" := get options "onStart"]> config else config in
  let config :=
    if truthy (get options "onComplete")
    then <["onComplete" := get options "onComplete"]> config else config in
  config.

Definition animate (element : element) (properties options : object)
    : M handle :=
  animation ← gsap_to [element] (animate_config properties options);
  activeAnimations_add animation;;
  mret animation.

Definition fadeIn (element : element) (options : object) : M handle :=
  gsap_set [element] {[ "opacity" := JInt 0 ]};;
  animate element {[ "opacity" := JInt 1 ]} options.

Definition fadeOut (element : element) (options : object) : M handle :=
  animate element {[ "opacity" := JInt 0 ]} options.

Definition slideUp (element : element) (options : object) : M handle :=
  let distance := js_or (get options "distance") (JInt 100) in
  gsap_set [element] {[ "y" := distance; "opacity" := JInt 0 ]};;
  animate element {[ "y" := JInt 0; "opacity" := JInt 1 ]} options.

Definition slideDown (element : element) (options : object) : M handle :=
  let distance := js_or (get options "distance") (JInt 100) in
  gsap_set [element] {[ "y" := js_neg distance; "opacity" := JInt 0 ]};;
  animate element {[ "y" := JInt 0; "opacity" := JInt 1 ]} options.

Definition slideLeft (element : element) (options : object) : M handle :=
  let distance := js_or (get options "distance") (JInt 100) in
  gsap_set [element] {[ "x" := distance; "opacity" := JInt 0 ]};;
  animate element {[ "x" := JInt 0; "opacity" := JInt 1 ]} options.

Definition slideRight (element : element) (options : object) : M handle :=
  let distance := js_or (get options "distance") (JInt 100) in
  gsap_set [element] {[ "x" := js_neg distance; "opacity" := JInt 0 ]};;
  animate element {[ "x" := JInt 0; "opacity" := JInt 1 ]} options.

Definition scaleUp (element : element) (options : object) : M handle :=
  gsap_set [element] {[ "scale" := JInt 0; "opacity" := JInt 0 ]};;
  animate element {[ "scale" := JInt 1; "opacity" := JInt 1 ]}
    (options ∪ {[ "ease" := VStr "back.out(1.7)" ]}).

Definition scaleDown (element : element) (options : object) : M handle :=
  animate element {[ "scale" := JInt 0; "opacity" := JInt 0 ]}
    (options ∪ {[ "ease" := VStr "back.in(1.7)" ]}).

Definition rotateIn (element : element) (options : object) : M handle :=
  gsap_set [element]
    {[ "rotation" := JInt (-180); "scale" := JInt 0; "opacity" := JInt 0 ]};;
  animate element
    {[ "rotation" := JInt 0; "scale" := JInt 1; "opacity" := JInt 1 ]}
    (options ∪ {[ "ease" := VStr "back.out(1.7)" ]}).

Definition rotateOut (element : element) (options : object) : M handle :=
  animate element
    {[ "rotation" := JInt 180; "scale" := JInt 0; "opacity" := JInt 0 ]}
    (options ∪ {[ "ease" := VStr "back.in(1.7)" ]}).

Definition bounceIn (element : element) (options : object) : M handle :=
  gsap_set [element] {[ "y" := JInt (-100); "opacity" := JInt 0 ]};;
  animate element {[ "y" := JInt 0; "opacity" := JInt 1 ]}
    (options ∪ {[ "ease" := VStr "bounce.out"; "duration" := JDec 15 10 ]}).

Definition elastic (element : element) (options : object) : M handle :=
  gsap_set [element] {[ "scale" := JInt 0; "opacity" := JInt 0 ]};;
  animate element {[ "scale" := JInt 1; "opacity" := JInt 1 ]}
    (options ∪ {[ "ease" := VStr "elastic.out(1, 0.5)";
                  "duration" := JDec 15 10 ]}).

Definition flip (element : element) (options : object) : M handle :=
  animate element {[ "rotationY" := JInt 360 ]}
    (options ∪ {[ "duration" := JInt 1 ]}).

Definition shake (element : element) (options : object) : M handle :=
  tl ← gsap_timeline ∅;
  let intensity := js_or (get options "intensity") (JInt 10) in
  t1 ← timeline_to tl [element]
         {[ "x" := js_neg intensity; "duration" := JDec 1 10 ]};
  t2 ← timeline_to t1 [element] {[ "x" := intensity; "duration" := JDec 1 10 ]};
  t3 ← timeline_to t2 [element]
         {[ "x" := js_neg intensity; "duration" := JDec 1 10 ]};
  t4 ← timeline_to t3 [element] {[ "x" := intensity; "duration" := JDec 1 10 ]};
  timeline_to t4 [element] {[ "x" := JInt 0; "duration" := JDec 1 10 ]};;
  mret tl.

Definition pulse (element : element) (options : object) : M handle :=
  tl ← gsap_timeline {[ "repeat" := js_or (get options "repeat") (JInt 2) ]};
  t1 ← timeline_to tl [element]
         {[ "scale" := JDec 11 10; "duration" := JDec 3 10 ]};
  timeline_to t1 [element] {[ "scale" := JInt 1; "duration" := JDec 3 10 ]};;
  mret tl.

Definition staggerFadeIn (elements : list element) (options : object)
    : M handle :=
  gsap_set elements {[ "opacity" := JInt 0 ]};;
  gsap_to elements
    {[ "opacity" := JInt 1;
       "duration" := js_or (get options "duration") (JInt 1);
       "stagger" := js_or (get options "stagger") (JDec 2 10);
       "ease" := js_or (get options "ease") (VStr "power2.out");
       "delay" := js_or (get options "delay") (JInt 0) ]}.

Definition staggerSlideUp (elements : list element) (options : object)
    : M handle :=
  let distance := js_or (get options "distance") (JInt 50) in
  gsap_set elements {[ "y" := distance; "opacity" := JInt 0 ]};;
  gsap_to elements
    {[ "y" := JInt 0;
       "opacity" := JInt 1;
       "duration" := js_or (get options "duration") (JInt 1);
       "stagger" := js_or (get options "stagger") (JDec 2 10);
       "ease" := js_or (get options "ease") (VStr "power2.out");
       "delay" := js_or (get options "delay") (JInt 0) ]}.

Definition staggerScale (elements : list element) (options : object)
    : M handle :=
  gsap_set elements {[ "scale" := JInt 0; "opacity" := JInt 0 ]};;
  gsap_to elements
    {[ "scale" := JInt 1;
       "opacity" := JInt 1;
       "duration" := js_or (get options "duration") (JInt 1);
       "stagger" := js_or (get options "stagger") (JDec 2 10);
       "ease" := js_or (get options "ease") (VStr "back.out(1.7)");
       "delay" := js_or (get options "delay") (JInt 0) ]}.

Definition createTimeline (name : string) (options : object) : M handle :=
  timeline ← gsap_timeline options;
  timelines_set name timeline;;
  mret timeline.

(** The result is the timeline, or [None] for JavaScript's [undefined]. *)
Definition getTimeline (name : string) : M (option handle) :=
  timelines_get name.

Definition playTimeline (name : string) : M unit :=
  timeline ← timelines_get name;
  match timeline with Some tl => anim_play tl | None => mret tt end.

Definition pauseTimeline (name : string) : M unit :=
  timeline ← timelines_get name;
  match timeline with Some tl => anim_pause tl | None => mret tt end.

Definition reverseTimeline (name : string) : M unit :=
  timeline ← timelines_get name;
  match timeline with Some tl => anim_reverse tl | None => mret tt end.

Definition restartTimeline (name : string) : M unit :=
  timeline ← timelines_get name;
  match timeline with Some tl => anim_restart tl | None => mret tt end.

Definition killAll : M unit :=
  activeAnimations_forEach anim_kill;;
  activeAnimations_clear;;
  gsap_killTweensOf_star.

(** [animation] is any value: the guard lets the falsy ones through, and a
    truthy value without a [kill] method makes the call throw.  On an object
    of its own the engine is not involved: its [kill()] is called, whose
    effect lies outside the state of the embedding, and [Set.delete] finds
    nothing to delete, since the set holds engine objects only. *)
Definition killAnimation (animation : value) : M unit :=
  if truthy animation then
    match animation with
    | VAnim h => anim_kill h;; activeAnimations_delete h
    | VObject o true => log (KillObject o)
    | _ => throw (TypeError "animation.kill is not a function")
    end
  else mret tt.

Definition resetElement (element : element) : M unit :=
  gsap_set [element]
    {[ "clearProps" := VStr "x,y,scale,rotation,opacity,transform" ]}.

(** ** Vocabulary of the statements *)

(** The merge as the specification of the library words it: three defaults,
    then the options, then the raw properties, and nothing else. *)
Definition documented_defaults : object :=
  {[ "duration" := JInt 1; "ease" := VStr "power2.out"; "delay" := JInt 0 ]}.

Definition documented_config (properties options : object) : object :=
  properties ∪ options ∪ documented_defaults.

(** Reading key [k] through the three layers, the later layer first. *)
Definition layered (properties options : object) (k : string) : option value :=
  match properties !! k with
  | Some v => Some v
  | None =>
      match options !! k with
      | Some v => Some v
      | None => defaults !! k
      end
  end.

(** [applies m targets initial final]: whatever the state, [m] returns a
    handle after exactly two engine calls on [targets], first
    [gsap.set(targets, initial)], then [gsap.to(targets, config)] for a
    [config] that holds every pair of [final]. *)
Definition applies (m : M handle) (targets : list element)
    (initial final : object) : Prop :=
  ∀ s, ∃ h s' config,
    m s = Ok (h, s') ∧
    calls s' = calls s ++ [GsapSet targets initial; GsapTo targets config h] ∧
    final ⊆ config.

(** [tracked m]: the handle that [m] returns is in [activeAnimations] when
    [m] returns. *)
Definition tracked (m : M handle) : Prop :=
  ∀ s, ∃ h s', m s = Ok (h, s') ∧ h ∈ activeAnimations s'.

(** The animation objects after [kill()] on each handle of [l] in turn. *)
Definition kill_each (l : list handle) (m : gmap handle anim) : gmap handle anim :=
  foldl (λ m h, alter kill_anim h m) m l.

(** ** Sample elements and states *)

Definition el_attached : element := {| el_id := 0; in_document := true |}.
Definition el_detached : element := {| el_id := 0; in_document := false |}.

(** A state with nothing in it, as left by the constructor on a page where
    nothing has been animated yet. *)
Definition s0 : state :=
  {| next_id := 0; anims := ∅; calls := []; activeAnimations := [];
     timelines := ∅ |}.

(** One timeline, registered under the name intro. *)
Definition s_intro : state :=
  {| next_id := 1; anims := {[ 0 := mk_anim Timeline [] ∅ None ]};
     calls := [GsapTimeline ∅ 0]; activeAnimations := [];
     timelines := {[ "intro" := 0 ]} |}.

(** Two tweens, both in the active set. *)
Definition s_two : state :=
  {| next_id := 2;
     anims := {[ 0 := mk_anim Tween [el_attached] {[ "opacity" := JInt 1 ]} None;
                 1 := mk_anim Tween [el_attached] {[ "opacity" := JInt 0 ]} None ]};
     calls := []; activeAnimations := [0; 1]; timelines := ∅ |}.

(** ** The presets as a family *)

(** The thirteen presets that are written through [animate]. *)
Inductive preset :=
  | PFadeIn | PFadeOut | PSlideUp | PSlideDown | PSlideLeft | PSlideRight
  | PScaleUp | PScaleDown | PRotateIn | PRotateOut | PBounceIn | PElastic
  | PFlip.

Definition call_preset (p : preset) : element → object → M handle :=
  match p with
  | PFadeIn => fadeIn | PFadeOut => fadeOut
  | PSlideUp => slideUp | PSlideDown => slideDown
  | PSlideLeft => slideLeft | PSlideRight => slideRight
  | PScaleUp => scaleUp | PScaleDown => scaleDown
  | PRotateIn => rotateIn | PRotateOut => rotateOut
  | PBounceIn => bounceIn | PElastic => elastic
  | PFlip => flip
  end.

(** The two presets that build a timeline, and the three stagger variants:
    the five that call the engine without going through [animate]. *)
Inductive sequence_preset := PShake | PPulse.

Definition call_sequence (p : sequence_preset) : element → object → M handle :=
  match p with PShake => shake | PPulse => pulse end.

Inductive stagger_preset := PStaggerFadeIn | PStaggerSlideUp | PStaggerScale.

Definition call_stagger (p : stagger_preset)
    : list element → object → M handle :=
  match p with
  | PStaggerFadeIn => staggerFadeIn
  | PStaggerSlideUp => staggerSlideUp
  | PStaggerScale => staggerScale
  end.

Inductive control := CPlay | CPause | CReverse | CRestart.

Definition call_control (c : control) : string → M unit :=
  match c with
  | CPlay => playTimeline | CPause => pauseTimeline
  | CReverse => reverseTimeline | CRestart => restartTimeline
  end.

(** The engine call that a control method makes on a registered timeline. *)
Definition control_call (c : control) (tl : handle) : call :=
  match c with
  | CPlay => Play tl | CPause => Pause tl
  | CReverse => Reverse tl | CRestart => Restart tl
  end.

(** What each preset sets before animating, if anything. *)
Definition preset_initial (p : preset) (options : object) : option object :=
  let distance := js_or (get options "distance") (JInt 100) in
  match p with
  | PFadeIn => Some {[ "opacity" := JInt 0 ]}
  | PSlideUp => Some {[ "y" := distance; "opacity" := JInt 0 ]}
  | PSlideDown => Some {[ "y" := js_neg distance; "opacity" := JInt 0 ]}
  | PSlideLeft => Some {[ "x" := distance; "opacity" := JInt 0 ]}
  | PSlideRight => Some {[ "x" := js_neg distance; "opacity" := JInt 0 ]}
  | PScaleUp | PElastic => Some {[ "scale" := JInt 0; "opacity" := JInt 0 ]}
  | PRotateIn =>
      Some {[ "rotation" := JInt (-180); "scale" := JInt 0;
              "opacity" := JInt 0 ]}
  | PBounceIn => Some {[ "y" := JInt (-100); "opacity" := JInt 0 ]}
  | PFadeOut | PScaleDown | PRotateOut | PFlip => None
  end.

(** The properties each preset animates to. *)
Definition preset_final (p : preset) : object :=
  match p with
  | PFadeIn => {[ "opacity" := JInt 1 ]}
  | PFadeOut => {[ "opacity" := JInt 0 ]}
  | PSlideUp | PSlideDown | PBounceIn => {[ "y" := JInt 0; "opacity" := JInt 1 ]}
  | PSlideLeft | PSlideRight => {[ "x" := JInt 0; "opacity" := JInt 1 ]}
  | PScaleUp | PElastic => {[ "scale" := JInt 1; "opacity" := JInt 1 ]}
  | PScaleDown => {[ "scale" := JInt 0; "opacity" := JInt 0 ]}
  | PRotateIn =>
      {[ "rotation" := JInt 0; "scale" := JInt 1; "opacity" := JInt 1 ]}
  | PRotateOut =>
      {[ "rotation" := JInt 180; "scale" := JInt 0; "opacity" := JInt 0 ]}
  | PFlip => {[ "rotationY" := JInt 360 ]}
  end.

(** The timing defaults a preset puts under the caller's options. *)
Definition preset_timing (p : preset) : object :=
  match p with
  | PScaleUp | PRotateIn => {[ "ease" := VStr "back.out(1.7)" ]}
  | PScaleDown | PRotateOut => {[ "ease" := VStr "back.in(1.7)" ]}
  | PBounceIn => {[ "ease" := VStr "bounce.out"; "duration" := JDec 15 10 ]}
  | PElastic =>
      {[ "ease" := VStr "elastic.out(1, 0.5)"; "duration" := JDec 15 10 ]}
  | PFlip => {[ "duration" := JInt 1 ]}
  | PFadeIn | PFadeOut | PSlideUp | PSlideDown | PSlideLeft | PSlideRight => ∅
  end.

(** An options record without its falsy entries. *)
Definition drop_falsy (options : object) : object :=
  filter (λ kv, truthy kv.2 = true) options.

(** An options record restricted to the keys of [keys]. *)
Definition only (keys : list string) (options : object) : object :=
  filter (λ kv, kv.1 ∈ keys) options.

(** [killed s h]: the animation object [h] exists and has been killed. *)
Definition killed (s : state) (h : handle) : Prop :=
  ∃ a, anims s !! h = Some a ∧ a_killed a = true.

Definition killed_tween (s : state) (h : handle) : Prop :=
  ∃ a, anims s !! h = Some a ∧ a_kind a = Tween ∧ a_killed a = true.

(** ** [scrollTrigger] *)

(** The values of the object handed to [ScrollTrigger.create]: a value of
    the options, the trigger element, or the closure [() => animation()]
    around the callback of the caller. *)
Inductive trigger_value :=
  | TvValue (v : value)
  | TvElement (e : element)
  | TvOnEnter (animation : nat).

(** What a call of [scrollTrigger] does: warn on the console and return
    null, or return [ScrollTrigger.create(vars)]. *)
Inductive scrollTrigger_result :=
  | Warned (msg : string)
  | Created (vars : gmap string trigger_value).

(** [ScrollTrigger_defined] tells whether the plugin is loaded, that is
    whether [typeof ScrollTrigger] is not ['undefined']. *)
Definition scrollTrigger (ScrollTrigger_defined : bool) (element : element)
    (animation : nat) (options : object) : scrollTrigger_result :=
  if negb ScrollTrigger_defined then
    Warned "ScrollTrigger plugin not loaded. Install: npm install gsap"
  else
    Created
      ((TvValue <$> options) ∪
       {[ "trigger" := TvElement element;
          "start" := TvValue (js_or (get options "start") (VStr "top 80%"));
          "end" := TvValue (js_or (get options "end") (VStr "bottom 20%"));
          "onEnter" := TvOnEnter animation;
          "markers" := TvValue (js_or (get options "markers") (VBool false)) ]}).

(** What [scrollTrigger] passes when the options say nothing. *)
Definition scrollTrigger_defaults (element : element) (animation : nat)
    : gmap string trigger_value :=
  {[ "trigger" := TvElement element;
     "start" := TvValue (VStr "top 80%");
     "end" := TvValue (VStr "bottom 20%");
     "onEnter" := TvOnEnter animation;
     "markers" := TvValue (VBool false) ]}.

(** ** Sequences of calls *)

(** One call into the class.  [OpTick h] is not a call: it is the engine
    bringing the animation [h] to its end between two calls. *)
Inductive op :=
  | OpAnimate (el : element) (properties options : object)
  | OpPreset (p : preset) (el : element) (options : object)
  | OpSequence (p : sequence_preset) (el : element) (options : object)
  | OpStagger (p : stagger_preset) (els : list element) (options : object)
  | OpCreateTimeline (name : string) (options : object)
  | OpGetTimeline (name : string)
  | OpControl (c : control) (name : string)
  | OpKillAll
  | OpKillAnimation (animation : value)
  | OpResetElement (el : element)
  | OpTick (h : handle).

(** [exec o] runs the call and gives the animation object that the call
    created and returned to its caller, if it created one. *)
Definition exec (o : op) : M (option handle) :=
  match o with
  | OpAnimate el properties options =>
      h ← animate el properties options; mret (Some h)
  | OpPreset p el options => h ← call_preset p el options; mret (Some h)
  | OpSequence p el options => h ← call_sequence p el options; mret (Some h)
  | OpStagger p els options => h ← call_stagger p els options; mret (Some h)
  | OpCreateTimeline name options =>
      h ← createTimeline name options; mret (Some h)
  | OpGetTimeline name => getTimeline name;; mret None
  | OpControl c name => call_control c name;; mret None
  | OpKillAll => killAll;; mret None
  | OpKillAnimation animation => killAnimation animation;; mret None
  | OpResetElement el => resetElement el;; mret None
  | OpTick h => engine_completes h;; mret None
  end.

(** The calls of a script in order, with the handles they returned. *)
Fixpoint exec_ops (ops : list op) : M (list (op * handle)) :=
  match ops with
  | [] => mret []
  | o :: ops' =>
      r ← exec o;
      rest ← exec_ops ops';
      mret (match r with Some h => (o, h) :: rest | None => rest end)
  end.

(** The calls written through [animate]. *)
Definition through_animate (o : op) : bool :=
  match o with
  | OpAnimate _ _ _ | OpPreset _ _ _ => true
  | _ => false
  end.

(** The calls that throw: [killAnimation] on a truthy value that has no
    [kill] method. *)
Definition throws (o : op) : bool :=
  match o with
  | OpKillAnimation (VAnim _) | OpKillAnimation (VObject _ true) => false
  | OpKillAnimation v => truthy v
  | _ => false
  end.

Definition is_kill (o : op) : bool :=
  match o with
  | OpKillAll | OpKillAnimation _ => true
  | _ => false
  end.

(** The calls that register a timeline under [name]. *)
Definition creates (name : string) (o : op) : bool :=
  match o with
  | OpCreateTimeline name' _ => String.eqb name' name
  | _ => false
  end.

(** Of the handles a script got back, those that came through [animate]. *)
Fixpoint handles_through_animate (produced : list (op * handle)) : list handle :=
  match produced with
  | [] => []
  | (o, h) :: rest =>
      if through_animate o then h :: handles_through_animate rest
      else handles_through_animate rest
  end.

(** Well-formed states: the engine numbers its objects below [next_id]; the
    active set holds existing standalone tweens, each once; the registry
    holds existing timelines. *)
Record wf (s : state) : Prop := {
  wf_fresh : ∀ h : handle, is_Some (anims s !! h) → h < next_id s;
  wf_active : ∀ h : handle, h ∈ activeAnimations s →
    ∃ a, anims s !! h = Some a ∧ a_kind a = Tween ∧ a_parent a = None;
  wf_nodup : NoDup (activeAnimations s);
  wf_timelines : ∀ (name : string) (h : handle), timelines s !! name = Some h →
    ∃ a, anims s !! h = Some a ∧ a_kind a = Timeline
}.

(** [persists s s']: from [s] to [s'] the engine only numbers upwards, a
    handle of [s] that was in the active set or a killed tween is still in
    the set or a killed tween, and a handle of [s] outside the set stays
    outside. *)
Definition persists (s s' : state) : Prop :=
  (next_id s ≤ next_id s')%nat ∧
  (∀ h : handle, h < next_id s →
     h ∈ activeAnimations s ∨ killed_tween s h →
     h ∈ activeAnimations s' ∨ killed_tween s' h) ∧
  (∀ h : handle, h < next_id s →
     h ∉ activeAnimations s → h ∉ activeAnimations s').

(** New objects numbered from [n] on, the older ones untouched. *)
Definition fresh_ext (n : handle) (m : gmap handle anim)
    (n' : handle) (m' : gmap handle anim) : Prop :=
  (n ≤ n')%nat ∧
  (∀ h : handle, h < n → m' !! h = m !! h) ∧
  (∀ h : handle, (n ≤ h)%nat → is_Some (m' !! h) → h < n').

(** Updates of an object that keep its kind and parent and never un-kill
    it; objects that differ by an update that keeps the kind and parent and
    never un-kills a tween; maps that differ by such updates. *)
Definition stable (f : anim → anim) : Prop :=
  ∀ a, a_kind (f a) = a_kind a ∧ a_parent (f a) = a_parent a ∧
       (a_killed a = true → a_killed (f a) = true).

Definition keeps (a a' : anim) : Prop :=
  a_kind a' = a_kind a ∧ a_parent a' = a_parent a ∧
  (a_kind a = Tween → a_killed a = true → a_killed a' = true).

Definition mutated (m m' : gmap handle anim) : Prop :=
  ∀ h, ∃ f, (∀ a, m !! h = Some a → keeps a (f a)) ∧ m' !! h = f <$> m !! h.

(** A script: fade in, shake, stagger, let the fade run to its end. *)
Definition sample_script : list op :=
  [ OpPreset PFadeIn el_attached {[ "duration" := JInt 2 ]};
    OpSequence PShake el_detached ∅;
    OpStagger PStaggerFadeIn [el_attached; el_detached] ∅;
    OpCreateTimeline "intro" ∅;
    OpTick 0 ].

(** A script with kills, for a state where intro is registered. *)
Definition kill_script : list op :=
  [ OpPreset PFadeIn el_attached ∅;
    OpKillAnimation (VAnim 0);
    OpControl CRestart "intro";
    OpCreateTimeline "outro" ∅;
    OpKillAll ].

(** ** Running the methods symbolically *)

Ltac run :=
  lazy beta iota zeta delta
    [animate fadeIn fadeOut slideUp slideDown slideLeft slideRight scaleUp
     scaleDown rotateIn rotateOut bounceIn elastic flip shake pulse
     staggerFadeIn staggerSlideUp staggerScale createTimeline getTimeline
     playTimeline pauseTimeline reverseTimeline restartTimeline killAll
     killAnimation resetElement
     gsap_set gsap_to gsap_timeline timeline_to new_anim log set_anims
     anim_kill gsap_killTweensOf_star anim_play anim_pause anim_reverse
     anim_restart activeAnimations_add activeAnimations_delete
     activeAnimations_clear activeAnimations_forEach timelines_set
     timelines_get throw mbind mret M_bind M_ret
     next_id anims calls activeAnimations timelines].

Tactic Notation "run" "in" hyp(H) :=
  lazy beta iota zeta delta
    [next_id anims calls activeAnimations timelines] in H.

(** ** [animate] *)

Lemma spread_lookup (properties options : object) k :
  (properties ∪ options ∪ defaults) !! k = layered properties options k.
Proof.
  unfold layered. rewrite !lookup_union.
  destruct (properties !! k), (options !! k), (defaults !! k); reflexivity.
Qed.

Lemma animate_config_lookup (properties options : object) k :
  animate_config properties options !! k =
    if decide (k = "onComplete" ∧ truthy (get options "onComplete") = true)
    then Some (get options "onComplete")
    else if decide (k = "onStart" ∧ truthy (get options "onStart") = true)
    then Some (get options "onStart")
    else layered properties options k.
Proof.
  unfold animate_config.
  destruct (truthy (get options "onStart")) eqn:Hs;
    destruct (truthy (get options "onComplete")) eqn:Hc;
    repeat case_decide; destruct_and?; subst;
    repeat (rewrite lookup_insert_eq || rewrite lookup_insert_ne by naive_solver);
    rewrite ?spread_lookup; try done; naive_solver.
Qed.

(** Properties of the caller reach the engine unchanged, the two callback
    keys apart. *)
Lemma animate_config_properties (properties options : object) k v :
  properties !! k = Some v → k ≠ "onStart" → k ≠ "onComplete" →
  animate_config properties options !! k = Some v.
Proof.
  intros Hk H1 H2. rewrite animate_config_lookup.
  rewrite !decide_False by (intros [? _]; done).
  unfold layered. by rewrite Hk.
Qed.

Lemma animate_eq el properties options s :
  animate el properties options s =
    Ok (next_id s,
        {| next_id := S (next_id s);
           anims := <[next_id s :=
                      mk_anim Tween [el] (animate_config properties options) None]>
                      (anims s);
           calls := calls s ++
                    [GsapTo [el] (animate_config properties options) (next_id s)];
           activeAnimations :=
             if decide (next_id s ∈ activeAnimations s) then activeAnimations s
             else activeAnimations s ++ [next_id s];
           timelines := timelines s |}).
Proof. reflexivity. Qed.

(** C2 (as amended).  [animate] submits exactly one engine animation, on the
    element it was given.  Its configuration is the merge of the defaults
    (duration 1, ease power2.out, delay 0, and the two callbacks onComplete
    and onStart set to null), then the options, then the raw properties, a
    later layer overriding an earlier one on every key, except that a truthy
    [options.onStart] (resp. [options.onComplete]) is what the engine
    receives under that key, whatever the raw properties say. *)
Theorem animate_merges_and_submits_once el (properties options : object) s :
  ∃ h s' config,
    animate el properties options s = Ok (h, s') ∧
    calls s' = calls s ++ [GsapTo [el] config h] ∧
    defaults = {[ "duration" := JInt 1; "ease" := VStr "power2.out";
                  "delay" := JInt 0; "onComplete" := VNull;
                  "onStart" := VNull ]} ∧
    ∀ k,
      config !! k =
        if decide (k = "onComplete" ∧ truthy (get options "onComplete") = true)
        then options !! "onComplete"
        else if decide (k = "onStart" ∧ truthy (get options "onStart") = true)
        then options !! "onStart"
        else match properties !! k with
             | Some v => Some v
             | None => match options !! k with
                       | Some v => Some v
                       | None => defaults !! k
                       end
             end.
Proof.
  eexists _, _, _. split; [apply animate_eq|]. cbn.
  split; [reflexivity|]. split; [reflexivity|].
  intros k. rewrite animate_config_lookup.
  repeat case_decide; try reflexivity.
  - destruct_and!. unfold get in *.
    destruct (options !! "onComplete"); [reflexivity | discriminate].
  - destruct_and!. unfold get in *.
    destruct (options !! "onStart"); [reflexivity | discriminate].
Qed.

(** ** Presets that set an initial state and animate to a final state *)

Lemma animate_config_final (final options : object) :
  final !! "onStart" = None → final !! "onComplete" = None →
  final ⊆ animate_config final options.
Proof.
  intros Hs Hc. apply map_subseteq_spec. intros k v Hk.
  apply animate_config_properties; [assumption | |]; intros ->; congruence.
Qed.

Lemma set_then_animate_applies el (initial final options : object) :
  final !! "onStart" = None → final !! "onComplete" = None →
  applies (gsap_set [el] initial;; animate el final options) [el] initial final.
Proof.
  intros Hs Hc s. eexists _, _, _. split; [reflexivity|]. cbn.
  split; [by rewrite <- app_assoc|]. by apply animate_config_final.
Qed.

Lemma set_then_to_applies els (initial final config : object) :
  final ⊆ config →
  applies (gsap_set els initial;; gsap_to els config) els initial final.
Proof.
  intros Hsub s. eexists _, _, _. split; [reflexivity|]. cbn.
  split; [by rewrite <- app_assoc | assumption].
Qed.

(** C9 (as amended).  Each directional slide preset first sets its initial
    offset and opacity 0, then animates to offset 0 and opacity 1.  With
    distance standing for [options.distance] when that is truthy and for
    100 when it is not (so also for a distance of 0), slideUp starts at
    distance on y, slideDown at the opposite of distance on y, slideLeft at
    distance on x, slideRight at the opposite of distance on x.  The
    opposite of a finite number [q] is [- q]; the other cases follow the
    conversion to a number of the language. *)
Theorem slide_presets_initial_then_final el (options : object) :
  let distance :=
    if truthy (get options "distance") then get options "distance"
    else JInt 100 in
  let minus_distance :=
    VNum match distance with
         | VNum (Fin q) => Fin (- q)
         | VNum (Infinity negative) => Infinity (negb negative)
         | VStr str =>
             match StringToNumber str with
             | Fin q => Fin (- q)
             | Infinity negative => Infinity (negb negative)
             | NaN => NaN
             end
         | VBool b => Fin (- (if b then 1 else 0))
         | VNull => Fin (- 0)
         | VNum NaN | VUndefined | VFun _ | VAnim _ | VObject _ _ => NaN
         end in
  applies (slideUp el options) [el]
    {[ "y" := distance; "opacity" := JInt 0 ]}
    {[ "y" := JInt 0; "opacity" := JInt 1 ]} ∧
  applies (slideDown el options) [el]
    {[ "y" := minus_distance; "opacity" := JInt 0 ]}
    {[ "y" := JInt 0; "opacity" := JInt 1 ]} ∧
  applies (slideLeft el options) [el]
    {[ "x" := distance; "opacity" := JInt 0 ]}
    {[ "x" := JInt 0; "opacity" := JInt 1 ]} ∧
  applies (slideRight el options) [el]
    {[ "x" := minus_distance; "opacity" := JInt 0 ]}
    {[ "x" := JInt 0; "opacity" := JInt 1 ]}.
Proof.
  intros distance minus_distance.
  assert (Hminus : minus_distance = js_neg distance).
  { unfold minus_distance. generalize distance. intros v.
    by destruct v as [| |[|]|[| |q]|str|f|h|o k]. }
  rewrite Hminus. split_and!; by apply set_then_animate_applies.
Qed.

(** ** Stagger variants *)

(** C3 (as amended).  Each stagger variant applies, to the whole collection,
    the initial-state and final-state pairs of its singular counterpart:
    staggerFadeIn those of fadeIn, staggerScale those of scaleUp, and
    staggerSlideUp those of slideUp when [options.distance] is truthy.
    When it is not, staggerSlideUp starts from offset 50 and slideUp from
    offset 100. *)
Theorem stagger_variants_pairs els el (options : object) :
  (applies (staggerFadeIn els options) els
     {[ "opacity" := JInt 0 ]} {[ "opacity" := JInt 1 ]} ∧
   applies (fadeIn el options) [el]
     {[ "opacity" := JInt 0 ]} {[ "opacity" := JInt 1 ]}) ∧
  (applies (staggerScale els options) els
     {[ "scale" := JInt 0; "opacity" := JInt 0 ]}
     {[ "scale" := JInt 1; "opacity" := JInt 1 ]} ∧
   applies (scaleUp el options) [el]
     {[ "scale" := JInt 0; "opacity" := JInt 0 ]}
     {[ "scale" := JInt 1; "opacity" := JInt 1 ]}) ∧
  (applies (staggerSlideUp els options) els
     {[ "y" := if truthy (get options "distance")
               then get options "distance" else JInt 50;
        "opacity" := JInt 0 ]}
     {[ "y" := JInt 0; "opacity" := JInt 1 ]} ∧
   applies (slideUp el options) [el]
     {[ "y" := if truthy (get options "distance")
               then get options "distance" else JInt 100;
        "opacity" := JInt 0 ]}
     {[ "y" := JInt 0; "opacity" := JInt 1 ]}).
Proof.
  assert (Hsub : ∀ (k : string) (v : value) (final config : object),
             final ⊆ config → <[k := v]> final ⊆ <[k := v]> config)
    by (intros; by apply insert_mono).
  split_and!.
  - apply set_then_to_applies. apply Hsub, map_empty_subseteq.
  - by apply set_then_animate_applies.
  - apply set_then_to_applies. apply Hsub, Hsub, map_empty_subseteq.
  - by apply set_then_animate_applies.
  - apply set_then_to_applies. apply Hsub, Hsub, map_empty_subseteq.
  - by apply set_then_animate_applies.
Qed.

(** ** [shake] *)

(** C5.  [shake] builds one timeline and appends exactly five steps to it,
    all on the element and on x: the opposite of intensity, intensity, the
    opposite of intensity, intensity, 0, each with duration 0.1, where
    intensity is [options.intensity || 10].  The opposite of a finite number
    [q] is [- q]; the other cases follow the conversion to a number of the
    language.  A [duration] option changes nothing. *)
Theorem shake_five_steps el (options : object) s :
  let intensity := js_or (get options "intensity") (JInt 10) in
  let minus_intensity :=
    VNum match intensity with
         | VNum (Fin q) => Fin (- q)
         | VNum (Infinity negative) => Infinity (negb negative)
         | VStr str =>
             match StringToNumber str with
             | Fin q => Fin (- q)
             | Infinity negative => Infinity (negb negative)
             | NaN => NaN
             end
         | VBool b => Fin (- (if b then 1 else 0))
         | VNull => Fin (- 0)
         | VNum NaN | VUndefined | VFun _ | VAnim _ | VObject _ _ => NaN
         end in
  ∃ tl c1 c2 c3 c4 c5 s',
    shake el options s = Ok (tl, s') ∧
    calls s' = calls s ++
      [ GsapTimeline ∅ tl;
        TimelineTo tl [el]
          {[ "x" := minus_intensity; "duration" := JDec 1 10 ]} c1;
        TimelineTo tl [el] {[ "x" := intensity; "duration" := JDec 1 10 ]} c2;
        TimelineTo tl [el]
          {[ "x" := minus_intensity; "duration" := JDec 1 10 ]} c3;
        TimelineTo tl [el] {[ "x" := intensity; "duration" := JDec 1 10 ]} c4;
        TimelineTo tl [el] {[ "x" := JInt 0; "duration" := JDec 1 10 ]} c5 ] ∧
    ∀ d, shake el (<["duration" := d]> options) s = shake el options s.
Proof.
  intros intensity minus_intensity.
  assert (Hminus : minus_intensity = js_neg intensity).
  { unfold minus_intensity. generalize intensity. intros v.
    by destruct v as [| |[|]|[| |q]|str|f|h|o k]. }
  rewrite Hminus. destruct s as [n a c act tls].
  eexists _, _, _, _, _, _, _.
  split; [run; reflexivity|]. split.
  - run. by rewrite <- !app_assoc.
  - intros d. unfold shake, get. by rewrite lookup_insert_ne.
Qed.

(** ** The timeline registry *)

(** C6.  The timeline returned by [createTimeline(name, _)] is the one
    [getTimeline(name)] returns next.  After a second
    [createTimeline(name, _)], [getTimeline(name)] returns the second
    timeline, which is another object than the first, and the registry has
    no more names than before. *)
Theorem createTimeline_getTimeline name (options options2 : object) s :
  ∃ h1 s1 h2 s2,
    createTimeline name options s = Ok (h1, s1) ∧
    getTimeline name s1 = Ok (Some h1, s1) ∧
    createTimeline name options2 s1 = Ok (h2, s2) ∧
    getTimeline name s2 = Ok (Some h2, s2) ∧
    h2 ≠ h1 ∧
    dom (timelines s2) = dom (timelines s1).
Proof.
  destruct s as [n a c act tls]. eexists _, _, _, _.
  split; [run; reflexivity|].
  split; [run; by rewrite lookup_insert_eq|].
  split; [run; reflexivity|].
  split; [run; by rewrite lookup_insert_eq|].
  run. split; [lia|]. rewrite !dom_insert_L.
  by rewrite (assoc_L (∪)), (idemp_L (∪)).
Qed.

(** C7.  On a name that is not in the registry, playTimeline, pauseTimeline,
    reverseTimeline and restartTimeline return normally and leave the whole
    state as it was: the registry, every animation object, and the log of
    engine calls. *)
Theorem control_of_unknown_timeline_is_noop name s :
  timelines s !! name = None →
  playTimeline name s = Ok (tt, s) ∧
  pauseTimeline name s = Ok (tt, s) ∧
  reverseTimeline name s = Ok (tt, s) ∧
  restartTimeline name s = Ok (tt, s).
Proof.
  destruct s as [n a c act tls]. intros Hnone. run in Hnone.
  split_and!; run; by rewrite Hnone.
Qed.

(** On a registered name the call reaches the timeline. *)
Lemma playTimeline_known name tl s :
  timelines s !! name = Some tl →
  ∃ s', playTimeline name s = Ok (tt, s') ∧ calls s' = calls s ++ [Play tl].
Proof.
  destruct s as [n a c act tls]. intros Hsome. run in Hsome.
  eexists. split; [run; by rewrite Hsome|]. reflexivity.
Qed.

(** ** Killing animations *)

(** C8.  For a handle [h] of the active set, [killAnimation(h)] kills [h]
    and takes it out of the set; every other handle is in the set
    afterwards exactly when it was before, and its animation object is
    unchanged.  The only engine call is [h.kill()]. *)
Theorem killAnimation_removes_exactly h s :
  h ∈ activeAnimations s →
  ∃ s',
    killAnimation (VAnim h) s = Ok (tt, s') ∧
    (h ∉ activeAnimations s') ∧
    anims s' !! h = (kill_anim <$> anims s !! h) ∧
    (∀ h', h' ≠ h →
       (h' ∈ activeAnimations s' ↔ h' ∈ activeAnimations s) ∧
       anims s' !! h' = anims s !! h') ∧
    calls s' = calls s ++ [Kill h] ∧
    timelines s' = timelines s.
Proof.
  destruct s as [n a c act tls]. intros Hin. run in Hin.
  eexists. split; [run; reflexivity|]. run.
  split; [rewrite list_elem_of_filter; by intros [Hne _]|].
  split; [apply lookup_alter_eq|].
  split; [|done].
  intros h' Hne. split.
  - rewrite list_elem_of_filter. by split; [intros [_ ?] | intros ?].
  - by apply lookup_alter_ne.
Qed.

(** C10.  [killAnimation(null)] and [killAnimation(undefined)] return
    normally and leave the whole state as it was. *)
Theorem killAnimation_null_undefined s :
  killAnimation VNull s = Ok (tt, s) ∧
  killAnimation VUndefined s = Ok (tt, s).
Proof. split; reflexivity. Qed.

(** On an object with a [kill] method of its own, that method is called and
    nothing of the engine or of the instance changes. *)
Lemma killAnimation_other_object o s :
  ∃ s',
    killAnimation (VObject o true) s = Ok (tt, s') ∧
    calls s' = calls s ++ [KillObject o] ∧
    anims s' = anims s ∧
    activeAnimations s' = activeAnimations s ∧
    timelines s' = timelines s.
Proof. eexists. split; [reflexivity|]. by split_and!. Qed.

(** A truthy argument without a [kill] method makes the call throw. *)
Lemma killAnimation_not_an_animation s :
  killAnimation (JInt 5) s = Throw (TypeError "animation.kill is not a function").
Proof. reflexivity. Qed.

(** ** [killAll] *)

Lemma for_each_kill l s :
  for_each anim_kill l s =
    Ok (tt, {| next_id := next_id s; anims := kill_each l (anims s);
               calls := calls s ++ map Kill l;
               activeAnimations := activeAnimations s;
               timelines := timelines s |}).
Proof.
  revert s. induction l as [|h l IH]; intros s.
  - destruct s. cbn. by rewrite app_nil_r.
  - destruct s as [n a c act tls]. cbn [for_each]. run.
    rewrite IH. run. by rewrite <- app_assoc.
Qed.

Lemma killAll_eq s :
  killAll s =
    Ok (tt, {| next_id := next_id s;
               anims := kill_star <$> kill_each (activeAnimations s) (anims s);
               calls := calls s ++ map Kill (activeAnimations s)
                          ++ [KillTweensOf "*"];
               activeAnimations := [];
               timelines := timelines s |}).
Proof.
  destruct s as [n a c act tls]. run.
  rewrite for_each_kill. run. by rewrite <- app_assoc.
Qed.

Lemma kill_each_lookup l (m : gmap handle anim) h :
  kill_each l m !! h =
    if decide (h ∈ l) then kill_anim <$> (m !! h) else m !! h.
Proof.
  unfold kill_each. revert m. induction l as [|h' l IH]; intros m; [done|].
  cbn. rewrite IH. destruct (decide (h = h')) as [->|Hne].
  - rewrite lookup_alter_eq.
    rewrite (decide_True (P := h' ∈ h' :: l)) by apply list_elem_of_here.
    by destruct (decide (h' ∈ l)), (m !! h').
  - rewrite lookup_alter_ne by done.
    destruct (decide (h ∈ l)) as [Hin|Hnin].
    + by rewrite (decide_True (P := h ∈ h' :: l))
        by (by apply list_elem_of_further).
    + rewrite (decide_False (P := h ∈ h' :: l)); [done|].
      by intros [?|?]%elem_of_cons.
Qed.


Lemma kill_star_keeps_killed a : a_killed a = true → a_killed (kill_star a) = true.
Proof.
  intros Hk. unfold kill_star. destruct (a_kind a); [|done].
  by destruct (_ && _).
Qed.


(** ** Which presets track their handle *)

Lemma animate_tracked el (properties options : object) :
  tracked (animate el properties options).
Proof.
  intros s. eexists _, _. split; [apply animate_eq|]. cbn.
  case_decide; [done|]. apply elem_of_app. right. by apply list_elem_of_singleton.
Qed.

Lemma set_then_animate_tracked el (initial properties options : object) :
  tracked (gsap_set [el] initial;; animate el properties options).
Proof.
  intros s. eexists _, _. split; [reflexivity|]. cbn.
  case_decide; [done|]. apply elem_of_app. right. by apply list_elem_of_singleton.
Qed.

(** The fourteen presets written through [animate] track their handle. *)
Lemma animate_presets_tracked el (options : object) :
  tracked (fadeIn el options) ∧ tracked (fadeOut el options) ∧
  tracked (slideUp el options) ∧ tracked (slideDown el options) ∧
  tracked (slideLeft el options) ∧ tracked (slideRight el options) ∧
  tracked (scaleUp el options) ∧ tracked (scaleDown el options) ∧
  tracked (rotateIn el options) ∧ tracked (rotateOut el options) ∧
  tracked (bounceIn el options) ∧ tracked (elastic el options) ∧
  tracked (flip el options).
Proof.
  split_and!.
  - apply set_then_animate_tracked.
  - apply animate_tracked.
  - apply set_then_animate_tracked.
  - apply set_then_animate_tracked.
  - apply set_then_animate_tracked.
  - apply set_then_animate_tracked.
  - apply set_then_animate_tracked.
  - apply animate_tracked.
  - apply set_then_animate_tracked.
  - apply animate_tracked.
  - apply set_then_animate_tracked.
  - apply set_then_animate_tracked.
  - apply animate_tracked.
Qed.

(** The five presets that call the engine directly return a new handle and
    leave [activeAnimations] as it was. *)
Lemma direct_presets_leave_activeAnimations el els (options : object) s :
  (∃ s', shake el options s = Ok (next_id s, s') ∧
         activeAnimations s' = activeAnimations s) ∧
  (∃ s', pulse el options s = Ok (next_id s, s') ∧
         activeAnimations s' = activeAnimations s) ∧
  (∃ s', staggerFadeIn els options s = Ok (next_id s, s') ∧
         activeAnimations s' = activeAnimations s) ∧
  (∃ s', staggerSlideUp els options s = Ok (next_id s, s') ∧
         activeAnimations s' = activeAnimations s) ∧
  (∃ s', staggerScale els options s = Ok (next_id s, s') ∧
         activeAnimations s' = activeAnimations s).
Proof.
  destruct s as [n a c act tls].
  split_and!; eexists; (split; [run; reflexivity | reflexivity]).
Qed.

(** C1 (evaluation at the failing input).  On a new instance,
    [shake(el, {})] returns a timeline that is not in [activeAnimations];
    the same holds of pulse and of the three stagger variants. *)
Theorem direct_presets_return_untracked_handle :
  let el := el_attached in
  (∃ h s', shake el ∅ s0 = Ok (h, s') ∧ h ∉ activeAnimations s') ∧
  (∃ h s', pulse el ∅ s0 = Ok (h, s') ∧ h ∉ activeAnimations s') ∧
  (∃ h s', staggerFadeIn [el] ∅ s0 = Ok (h, s') ∧ h ∉ activeAnimations s') ∧
  (∃ h s', staggerSlideUp [el] ∅ s0 = Ok (h, s') ∧ h ∉ activeAnimations s') ∧
  (∃ h s', staggerScale [el] ∅ s0 = Ok (h, s') ∧ h ∉ activeAnimations s').
Proof.
  intros el.
  split_and!; eexists _, _;
    (split; [run; reflexivity | run; apply not_elem_of_nil]).
Qed.

(** C4 (evaluation at the failing input).  On a new instance,
    [shake(el, {})] followed by [killAll()] empties the active set, but the
    only engine call [killAll] makes is [killTweensOf('*')]: the timeline
    that [shake] returned is not killed.  When [el] is not in the document,
    none of the five steps of the timeline is killed either. *)
Theorem killAll_misses_shake_timeline :
  (∃ tl s1 s2,
     shake el_detached ∅ s0 = Ok (tl, s1) ∧
     killAll s1 = Ok (tt, s2) ∧
     activeAnimations s2 = [] ∧
     calls s2 = calls s1 ++ [KillTweensOf "*"] ∧
     (λ h, a_killed <$> (anims s2 !! h)) <$> [tl; 1; 2; 3; 4; 5]
       = [Some false; Some false; Some false; Some false; Some false;
          Some false]) ∧
  (∃ tl s1 s2,
     shake el_attached ∅ s0 = Ok (tl, s1) ∧
     killAll s1 = Ok (tt, s2) ∧
     activeAnimations s2 = [] ∧
     a_killed <$> (anims s2 !! tl) = Some false).
Proof.
  split; eexists _, _, _;
    (split; [run; reflexivity|]); (split; [apply killAll_eq|]);
    cbn; split_and!; reflexivity.
Qed.

(** ** The presets written through [animate], as a family *)

Lemma animate_config_layers (final options timing : object) k :
  final !! "onStart" = None → final !! "onComplete" = None →
  timing !! "onStart" = None → timing !! "onComplete" = None →
  animate_config final (options ∪ timing) !! k =
    match final !! k with
    | Some v => Some v
    | None => match options !! k with
              | Some v => Some v
              | None => (timing ∪ defaults) !! k
              end
    end.
Proof.
  intros Hfs Hfc Hts Htc. rewrite animate_config_lookup.
  assert (Hget : ∀ key, timing !! key = None →
            get (options ∪ timing) key = get options key).
  { intros key Hkey. unfold get. rewrite lookup_union, Hkey.
    by destruct (options !! key). }
  rewrite !Hget by done. unfold layered, get. rewrite !lookup_union.
  repeat case_decide; destruct_and?; subst.
  - rewrite Hfc. by destruct (options !! "onComplete").
  - rewrite Hfs. by destruct (options !! "onStart").
  - by destruct (final !! k), (options !! k), (timing !! k), (defaults !! k).
Qed.

Lemma animate_config_layers_plain (final options : object) k :
  final !! "onStart" = None → final !! "onComplete" = None →
  animate_config final options !! k =
    match final !! k with
    | Some v => Some v
    | None => match options !! k with
              | Some v => Some v
              | None => (∅ ∪ defaults) !! k
              end
    end.
Proof.
  intros Hfs Hfc.
  rewrite <- (animate_config_layers final options ∅ k) by done.
  by rewrite (right_id_L ∅ (∪)).
Qed.

(** The engine calls of the thirteen presets written through [animate]:
    [gsap.set] with the initial state of the preset, when it has one, then
    exactly one [gsap.to] on the same element.  The configuration of that
    call reads, for every key, from four layers in this order: the final
    state of the preset, the options of the caller (whatever the value, also
    a falsy one), the timing defaults of the preset, the defaults of
    [animate]. *)
Theorem preset_engine_calls p el (options : object) s :
  ∃ h s' config,
    call_preset p el options s = Ok (h, s') ∧
    calls s' =
      calls s
      ++ match preset_initial p options with
         | Some initial => [GsapSet [el] initial]
         | None => []
         end
      ++ [GsapTo [el] config h] ∧
    ∀ k,
      config !! k =
        match preset_final p !! k with
        | Some v => Some v
        | None => match options !! k with
                  | Some v => Some v
                  | None => (preset_timing p ∪ defaults) !! k
                  end
        end.
Proof.
  destruct s as [n a c act tls].
  destruct p; eexists _, _, _;
    (split; [run; reflexivity|]);
    (split; [run; cbn [preset_initial app]; rewrite <- ?app_assoc; reflexivity|]);
    intros k; cbn [preset_final preset_timing];
    first [ by apply animate_config_layers
          | by apply animate_config_layers_plain ].
Qed.

(** ** [pulse] *)

(** [pulse] builds one timeline, created with [repeat] set to
    [options.repeat || 2] and nothing else, and appends exactly two steps to
    it, both on the element: scale 1.1 then scale 1, each with duration
    0.3. *)
Theorem pulse_two_steps el (options : object) s :
  ∃ tl c1 c2 s',
    pulse el options s = Ok (tl, s') ∧
    calls s' = calls s ++
      [ GsapTimeline
          {[ "repeat" := js_or (get options "repeat") (JInt 2) ]} tl;
        TimelineTo tl [el]
          {[ "scale" := JDec 11 10; "duration" := JDec 3 10 ]} c1;
        TimelineTo tl [el]
          {[ "scale" := JInt 1; "duration" := JDec 3 10 ]} c2 ].
Proof.
  destruct s as [n a c act tls]. eexists _, _, _, _.
  split; [run; reflexivity|]. run. by rewrite <- !app_assoc.
Qed.

(** ** The options that the direct presets read *)

Lemma get_only keys (options : object) k :
  k ∈ keys → get (only keys options) k = get options k.
Proof.
  intros Hin. unfold get, only. rewrite map_lookup_filter.
  destruct (options !! k) as [v|]; [|done]. cbn.
  by rewrite option_guard_True.
Qed.

Lemma js_or_get_drop_falsy (options : object) k d :
  js_or (get (drop_falsy options) k) d = js_or (get options k) d.
Proof.
  unfold js_or, get, drop_falsy. rewrite map_lookup_filter.
  destruct (options !! k) as [v|]; [|done]. cbn.
  destruct (truthy v) eqn:Hv.
  - rewrite option_guard_True by done. cbn. by rewrite Hv.
  - rewrite option_guard_False by (cbn; congruence). done.
Qed.

(** The five presets that call the engine directly read the options under a
    fixed set of keys and nothing else: shake reads intensity, pulse reads
    repeat, the stagger variants read duration, stagger, ease and delay, and
    staggerSlideUp reads distance too.  Every other entry of the options
    (callbacks such as onComplete and onStart included) has no effect. *)
Theorem direct_presets_read_only_their_keys el els (options : object) s :
  shake el options s = shake el (only ["intensity"] options) s ∧
  pulse el options s = pulse el (only ["repeat"] options) s ∧
  staggerFadeIn els options s =
    staggerFadeIn els (only ["duration"; "stagger"; "ease"; "delay"] options) s ∧
  staggerSlideUp els options s =
    staggerSlideUp els
      (only ["distance"; "duration"; "stagger"; "ease"; "delay"] options) s ∧
  staggerScale els options s =
    staggerScale els (only ["duration"; "stagger"; "ease"; "delay"] options) s.
Proof.
  unfold shake, pulse, staggerFadeIn, staggerSlideUp, staggerScale.
  split_and!; rewrite !get_only; try reflexivity;
    repeat first [ apply list_elem_of_here | apply list_elem_of_further ].
Qed.

(** For these five presets a falsy option value is the same as no value:
    an intensity, repeat, duration, stagger or delay of 0, like an empty
    ease, gives the default. *)
Theorem direct_presets_falsy_is_absent el els (options : object) s :
  shake el (drop_falsy options) s = shake el options s ∧
  pulse el (drop_falsy options) s = pulse el options s ∧
  staggerFadeIn els (drop_falsy options) s = staggerFadeIn els options s ∧
  staggerSlideUp els (drop_falsy options) s = staggerSlideUp els options s ∧
  staggerScale els (drop_falsy options) s = staggerScale els options s.
Proof.
  unfold shake, pulse, staggerFadeIn, staggerSlideUp, staggerScale.
  split_and!; by rewrite !js_or_get_drop_falsy.
Qed.

(** ** More on killing *)

Lemma kill_star_idemp a : kill_star (kill_star a) = kill_star a.
Proof.
  destruct a as [k ts vars parent kl pa rv cp]. destruct k; [|done].
  unfold kill_star. cbn.
  destruct (existsb in_document ts && forallb in_document ts) eqn:Hsel;
    cbn; by rewrite Hsel.
Qed.

(** A second [killAll] right after the first changes no animation object
    and no field of the instance; it only repeats the global call. *)
Theorem killAll_twice s :
  ∃ s1 s2,
    killAll s = Ok (tt, s1) ∧
    killAll s1 = Ok (tt, s2) ∧
    anims s2 = anims s1 ∧
    activeAnimations s2 = [] ∧
    timelines s2 = timelines s1 ∧
    next_id s2 = next_id s1 ∧
    calls s2 = calls s1 ++ [KillTweensOf "*"].
Proof.
  eexists _, _. split; [apply killAll_eq|]. split; [apply killAll_eq|].
  cbn. split_and!; try reflexivity.
  apply map_eq. intros h. rewrite !lookup_fmap.
  destruct (kill_each (activeAnimations s) (anims s) !! h); [|done].
  cbn. by rewrite kill_star_idemp.
Qed.

(** [killAll] calls [kill()] on every handle of the active set, once each
    and in the order in which the handles entered the set, then makes the
    one global call; it calls nothing else, creates no object, and leaves
    the registry as it was. *)
Theorem killAll_calls_in_order s :
  ∃ s',
    killAll s = Ok (tt, s') ∧
    calls s' = calls s ++ map Kill (activeAnimations s) ++ [KillTweensOf "*"] ∧
    activeAnimations s' = [] ∧
    timelines s' = timelines s ∧
    next_id s' = next_id s ∧
    dom (anims s') = dom (anims s).
Proof.
  eexists. split; [apply killAll_eq|]. cbn. split_and!; try reflexivity.
  rewrite dom_fmap_L. unfold kill_each.
  generalize (anims s). induction (activeAnimations s) as [|h l IH];
    intros m; [done|].
  cbn. rewrite IH. apply dom_alter_L.
Qed.

Lemma filter_absent (l : list handle) h :
  h ∉ l → filter (λ h', h' ≠ h) l = l.
Proof.
  induction l as [|h0 l IH]; [done|].
  intros Hnot. rewrite filter_cons_True.
  - f_equal. apply IH. intros Hin. apply Hnot. by apply list_elem_of_further.
  - intros ->. apply Hnot. apply list_elem_of_here.
Qed.

(** [killAnimation] on an animation that is not in the active set (the
    timeline of shake or pulse, a stagger tween, a registered timeline)
    kills it all the same, and leaves the set and every other animation
    object as they were. *)
Theorem killAnimation_untracked h s :
  h ∉ activeAnimations s →
  ∃ s',
    killAnimation (VAnim h) s = Ok (tt, s') ∧
    activeAnimations s' = activeAnimations s ∧
    anims s' !! h = (kill_anim <$> anims s !! h) ∧
    (∀ h', h' ≠ h → anims s' !! h' = anims s !! h') ∧
    calls s' = calls s ++ [Kill h] ∧
    timelines s' = timelines s.
Proof.
  destruct s as [n a c act tls]. intros Hnot. run in Hnot.
  eexists. split; [run; reflexivity|]. run.
  split; [by apply filter_absent|].
  split; [apply lookup_alter_eq|].
  split; [|done]. intros h' Hne. by apply lookup_alter_ne.
Qed.

(** ** More on the timeline registry *)

(** On a registered name, each control method makes exactly one engine call,
    on the registered timeline, whether or not that timeline has been
    killed.  The registry, the active set and every other animation object
    are unchanged, and the timeline keeps its kind. *)
Theorem control_of_registered_timeline c name tl s :
  timelines s !! name = Some tl →
  ∃ s',
    call_control c name s = Ok (tt, s') ∧
    calls s' = calls s ++ [control_call c tl] ∧
    timelines s' = timelines s ∧
    activeAnimations s' = activeAnimations s ∧
    next_id s' = next_id s ∧
    (∀ h, h ≠ tl → anims s' !! h = anims s !! h) ∧
    (∀ a, anims s !! tl = Some a →
       ∃ a', anims s' !! tl = Some a' ∧ a_kind a' = a_kind a).
Proof.
  destruct s as [n a c0 act tls]. intros Hsome. run in Hsome.
  destruct c; eexists;
    (split; [unfold call_control; run; by rewrite Hsome|]); run;
    (split; [reflexivity|]); (split; [reflexivity|]);
    (split; [reflexivity|]); (split; [reflexivity|]);
    (split; [intros h Hne; by apply lookup_alter_ne|]);
    intros a0 Ha0; rewrite lookup_alter_eq, Ha0; by eexists.
Qed.

(** [createTimeline] makes one engine call, the creation of the timeline.
    The entries of the registry under other names, the active set and
    every animation object that existed are unchanged; so a timeline that
    the call displaces is neither killed nor modified. *)
Theorem createTimeline_frame name (options : object) s :
  ∃ h s',
    createTimeline name options s = Ok (h, s') ∧
    h = next_id s ∧
    calls s' = calls s ++ [GsapTimeline options h] ∧
    (∀ name', name' ≠ name → timelines s' !! name' = timelines s !! name') ∧
    activeAnimations s' = activeAnimations s ∧
    (∀ h', h' ≠ h → anims s' !! h' = anims s !! h').
Proof.
  destruct s as [n a c act tls]. eexists _, _.
  split; [run; reflexivity|]. run. split_and!; try reflexivity.
  - intros name' Hne. by apply lookup_insert_ne.
  - intros h' Hne. by apply lookup_insert_ne.
Qed.

(** ** Invariants along sequences of calls *)

Lemma stable_id : stable id.
Proof. by intros a. Qed.

Lemma stable_kill_anim : stable kill_anim.
Proof. by intros a. Qed.

Lemma stable_kill_star : stable kill_star.
Proof.
  intros a. unfold kill_star.
  destruct (a_kind a) eqn:Hkind; [|done].
  by destruct (_ && _).
Qed.

Lemma stable_set_playback paused reversed : stable (set_playback paused reversed).
Proof. by intros a. Qed.

Lemma stable_pause : stable (λ a, set_playback true (a_reversed a) a).
Proof. by intros a. Qed.

Lemma stable_complete_anim : stable complete_anim.
Proof. by intros a. Qed.

Lemma stable_compose f g : stable f → stable g → stable (g ∘ f).
Proof.
  intros Hf Hg a. destruct (Hf a) as (Hk & Hp & Hkilled).
  destruct (Hg (f a)) as (Hk' & Hp' & Hkilled'). cbn.
  split_and!; [congruence | congruence | auto].
Qed.

Lemma stable_keeps f a : stable f → keeps a (f a).
Proof.
  intros Hf. destruct (Hf a) as (Hk & Hp & Hkilled).
  split_and!; [done | done | auto].
Qed.

Lemma mutated_refl (m : gmap handle anim) : mutated m m.
Proof.
  intros h. exists id.
  split; [intros a _; apply stable_keeps, stable_id|].
  by destruct (m !! h).
Qed.

Lemma mutated_alter f h0 (m : gmap handle anim) :
  stable f → mutated m (alter f h0 m).
Proof.
  intros Hf h. destruct (decide (h = h0)) as [->|Hne].
  - exists f. split; [intros a _; by apply stable_keeps|].
    apply lookup_alter_eq.
  - exists id. split; [intros a _; apply stable_keeps, stable_id|].
    rewrite lookup_alter_ne by done. by destruct (m !! h).
Qed.

(** An update of a timeline may un-kill it. *)
Lemma mutated_alter_timeline f h0 (m : gmap handle anim) :
  (∀ a, a_kind (f a) = a_kind a ∧ a_parent (f a) = a_parent a) →
  (∃ a, m !! h0 = Some a ∧ a_kind a = Timeline) →
  mutated m (alter f h0 m).
Proof.
  intros Hf (a0 & Ha0 & Hkind0) h. destruct (decide (h = h0)) as [->|Hne].
  - exists f. split; [|apply lookup_alter_eq].
    intros a Ha. rewrite Ha0 in Ha. injection Ha as <-.
    destruct (Hf a0) as [Hk Hp]. split_and!; [done | done |].
    intros Htween. congruence.
  - exists id. split; [intros a _; apply stable_keeps, stable_id|].
    rewrite lookup_alter_ne by done. by destruct (m !! h).
Qed.

Lemma mutated_killAll l (m : gmap handle anim) :
  mutated m (kill_star <$> kill_each l m).
Proof.
  intros h. rewrite lookup_fmap, kill_each_lookup. case_decide.
  - exists (kill_star ∘ kill_anim). split; [|by destruct (m !! h)].
    intros a _. apply stable_keeps, stable_compose;
      [apply stable_kill_anim | apply stable_kill_star].
  - exists kill_star. split; [|done].
    intros a _. apply stable_keeps, stable_kill_star.
Qed.

Lemma fresh_ext_refl n (m : gmap handle anim) :
  (∀ h : handle, is_Some (m !! h) → h < n) → fresh_ext n m n m.
Proof. intros Hfresh. split_and!; [lia | done | auto]. Qed.

Lemma fresh_ext_insert n (m : gmap handle anim) n' m' a :
  fresh_ext n m n' m' → fresh_ext n m (S n') (<[n' := a]> m').
Proof.
  intros (Hle & Hold & Hnew). split_and!.
  - lia.
  - intros h Hlt. rewrite lookup_insert_ne by lia. by apply Hold.
  - intros h Hge Hsome. destruct (decide (h = n')) as [->|Hne]; [lia|].
    rewrite lookup_insert_ne in Hsome by done.
    specialize (Hnew h Hge Hsome). lia.
Qed.

Lemma wf_next_not_active s : wf s → next_id s ∉ activeAnimations s.
Proof.
  intros Hwf Hin. destruct (wf_active s Hwf _ Hin) as (a & Ha & _).
  assert (next_id s < next_id s); [|lia].
  apply (wf_fresh s Hwf). by exists a.
Qed.

Lemma persists_refl s : persists s s.
Proof. split_and!; [lia | auto | auto]. Qed.

Lemma persists_trans s1 s2 s3 :
  persists s1 s2 → persists s2 s3 → persists s1 s3.
Proof.
  intros (Hle & Hin & Hout) (Hle' & Hin' & Hout'). split_and!.
  - lia.
  - intros h Hlt Hh. apply Hin'; [lia|]. by apply Hin.
  - intros h Hlt Hh. apply Hout'; [lia|]. by apply Hout.
Qed.

(** The allocation of new objects, with the active set grown by at most the
    first of them and the registry by at most an entry for it. *)
Lemma alloc_wf s s' :
  wf s →
  fresh_ext (next_id s) (anims s) (next_id s') (anims s') →
  (∀ h, h ∈ activeAnimations s' →
     h ∈ activeAnimations s ∨
     ∃ a, anims s' !! h = Some a ∧ a_kind a = Tween ∧ a_parent a = None) →
  NoDup (activeAnimations s') →
  (∀ name h, timelines s' !! name = Some h →
     timelines s !! name = Some h ∨
     ∃ a, anims s' !! h = Some a ∧ a_kind a = Timeline) →
  wf s'.
Proof.
  intros Hwf (Hle & Hold & Hnew) Hact Hnodup Htls.
  assert (Hkeep : ∀ h a, anims s !! h = Some a → anims s' !! h = Some a).
  { intros h a Ha. rewrite Hold; [done|].
    apply (wf_fresh s Hwf). by exists a. }
  split.
  - intros h Hsome. destruct (decide (h < next_id s)) as [Hlt|Hge].
    + lia.
    + apply Hnew; [lia | done].
  - intros h Hin. destruct (Hact h Hin) as [Hold_in|Hnew_obj]; [|done].
    destruct (wf_active s Hwf h Hold_in) as (a & Ha & Hk & Hp). eauto.
  - done.
  - intros name h Hname. destruct (Htls name h Hname) as [Hold_tl|Hnew_tl]; [|done].
    destruct (wf_timelines s Hwf name h Hold_tl) as (a & Ha & Hk). eauto.
Qed.

Lemma alloc_persists s s' :
  wf s →
  fresh_ext (next_id s) (anims s) (next_id s') (anims s') →
  (∀ h, h ∈ activeAnimations s → h ∈ activeAnimations s') →
  (∀ h, h ∈ activeAnimations s' → h ∈ activeAnimations s ∨ h = next_id s) →
  persists s s'.
Proof.
  intros Hwf (Hle & Hold & Hnew) Hsub Hsup. split_and!.
  - done.
  - intros h Hlt [Hin|(a & Ha & Hkind & Hk)]; [left; by apply Hsub|].
    right. exists a. by rewrite Hold.
  - intros h Hlt Hnot Hin. destruct (Hsup h Hin) as [?| ->]; [done | lia].
Qed.

(** Updates in place, with the active set shrunk at most by handles that
    are killed. *)
Lemma mutate_wf s s' :
  wf s → next_id s' = next_id s → mutated (anims s) (anims s') →
  (∀ h, h ∈ activeAnimations s' → h ∈ activeAnimations s) →
  NoDup (activeAnimations s') →
  timelines s' = timelines s →
  wf s'.
Proof.
  intros Hwf Hnext Hmut Hsup Hnodup Htls. split.
  - intros h Hsome. rewrite Hnext. apply (wf_fresh s Hwf).
    destruct (Hmut h) as (f & _ & Hf). rewrite Hf in Hsome.
    by apply fmap_is_Some in Hsome.
  - intros h Hin. destruct (wf_active s Hwf h (Hsup h Hin)) as (a & Ha & Hk & Hp).
    destruct (Hmut h) as (f & Hstable & Hf). rewrite Ha in Hf.
    destruct (Hstable a Ha) as (Hk' & Hp' & _).
    exists (f a). split_and!; [done | congruence | congruence].
  - done.
  - intros name h Hname. rewrite Htls in Hname.
    destruct (wf_timelines s Hwf name h Hname) as (a & Ha & Hk).
    destruct (Hmut h) as (f & Hstable & Hf). rewrite Ha in Hf.
    destruct (Hstable a Ha) as (Hk' & _).
    exists (f a). split; [done | congruence].
Qed.

Lemma mutate_persists s s' :
  wf s → next_id s' = next_id s → mutated (anims s) (anims s') →
  (∀ h, h ∈ activeAnimations s → h ∈ activeAnimations s' ∨ killed s' h) →
  (∀ h, h ∈ activeAnimations s' → h ∈ activeAnimations s) →
  persists s s'.
Proof.
  intros Hwf Hnext Hmut Hsub Hsup. split_and!.
  - lia.
  - intros h Hlt [Hin|(a & Ha & Hkind & Hk)].
    + destruct (Hsub h Hin) as [Hin'|(x & Hx & Hkx)]; [by left|].
      right. destruct (wf_active s Hwf h Hin) as (a & Ha & Hkind & _).
      destruct (Hmut h) as (f & Hkeeps & Hf). rewrite Ha, Hx in Hf.
      injection Hf as ->. destruct (Hkeeps a Ha) as (Hk' & _).
      exists (f a). split_and!; [done | congruence | done].
    + right. destruct (Hmut h) as (f & Hkeeps & Hf). rewrite Ha in Hf.
      destruct (Hkeeps a Ha) as (Hk' & _ & Hkilled).
      exists (f a). split_and!; [done | congruence | auto].
  - intros h Hlt Hnot Hin. by apply Hnot, Hsup.
Qed.

Lemma tracked_alloc n a c act tls cs obj :
  wf {| next_id := n; anims := a; calls := c; activeAnimations := act;
        timelines := tls |} →
  a_kind obj = Tween → a_parent obj = None →
  wf {| next_id := S n; anims := <[n := obj]> a; calls := cs;
        activeAnimations := act ++ [n]; timelines := tls |} ∧
  persists
    {| next_id := n; anims := a; calls := c; activeAnimations := act;
       timelines := tls |}
    {| next_id := S n; anims := <[n := obj]> a; calls := cs;
       activeAnimations := act ++ [n]; timelines := tls |}.
Proof.
  intros Hwf Hkind Hparent.
  pose proof (wf_next_not_active _ Hwf) as Hnot. cbn in Hnot.
  assert (Hext : fresh_ext n a (S n) (<[n := obj]> a)).
  { apply fresh_ext_insert, fresh_ext_refl. apply (wf_fresh _ Hwf). }
  split.
  - apply (alloc_wf _ _ Hwf); cbn.
    + done.
    + intros h [Hin| ->%list_elem_of_singleton]%elem_of_app; [by left|].
      right. exists obj. by rewrite lookup_insert_eq.
    + apply NoDup_app. split_and!.
      * apply (wf_nodup _ Hwf).
      * intros h Hin ->%list_elem_of_singleton. done.
      * apply NoDup_singleton.
    + intros name h Hname. by left.
  - apply (alloc_persists _ _ Hwf); cbn.
    + done.
    + intros h Hin. apply elem_of_app. by left.
    + intros h [Hin| ->%list_elem_of_singleton]%elem_of_app; [by left | by right].
Qed.

Lemma untracked_alloc n a c act tls cs n' a' :
  wf {| next_id := n; anims := a; calls := c; activeAnimations := act;
        timelines := tls |} →
  fresh_ext n a n' a' →
  wf {| next_id := n'; anims := a'; calls := cs; activeAnimations := act;
        timelines := tls |} ∧
  persists
    {| next_id := n; anims := a; calls := c; activeAnimations := act;
       timelines := tls |}
    {| next_id := n'; anims := a'; calls := cs; activeAnimations := act;
       timelines := tls |}.
Proof.
  intros Hwf Hext. split.
  - apply (alloc_wf _ _ Hwf); cbn.
    + done.
    + intros h Hin. by left.
    + apply (wf_nodup _ Hwf).
    + intros name h Hname. by left.
  - apply (alloc_persists _ _ Hwf); cbn; [done | done |]. intros h Hin. by left.
Qed.

Lemma registry_alloc n a c act tls cs name obj :
  wf {| next_id := n; anims := a; calls := c; activeAnimations := act;
        timelines := tls |} →
  a_kind obj = Timeline →
  wf {| next_id := S n; anims := <[n := obj]> a; calls := cs;
        activeAnimations := act; timelines := <[name := n]> tls |} ∧
  persists
    {| next_id := n; anims := a; calls := c; activeAnimations := act;
       timelines := tls |}
    {| next_id := S n; anims := <[n := obj]> a; calls := cs;
       activeAnimations := act; timelines := <[name := n]> tls |}.
Proof.
  intros Hwf Hkind.
  assert (Hext : fresh_ext n a (S n) (<[n := obj]> a)).
  { apply fresh_ext_insert, fresh_ext_refl. apply (wf_fresh _ Hwf). }
  split.
  - apply (alloc_wf _ _ Hwf); cbn.
    + done.
    + intros h Hin. by left.
    + apply (wf_nodup _ Hwf).
    + intros name' h Hname. destruct (decide (name' = name)) as [->|Hne].
      * rewrite lookup_insert_eq in Hname. injection Hname as <-.
        right. exists obj. by rewrite lookup_insert_eq.
      * rewrite lookup_insert_ne in Hname by done. by left.
  - apply (alloc_persists _ _ Hwf); cbn; [done | done |]. intros h Hin. by left.
Qed.

Lemma mutate_step n a c act tls cs a' act' :
  wf {| next_id := n; anims := a; calls := c; activeAnimations := act;
        timelines := tls |} →
  mutated a a' → NoDup act' →
  (∀ h, h ∈ act' → h ∈ act) →
  (∀ h x, h ∈ act → a !! h = Some x →
     h ∈ act' ∨ ∃ x', a' !! h = Some x' ∧ a_killed x' = true) →
  wf {| next_id := n; anims := a'; calls := cs; activeAnimations := act';
        timelines := tls |} ∧
  persists
    {| next_id := n; anims := a; calls := c; activeAnimations := act;
       timelines := tls |}
    {| next_id := n; anims := a'; calls := cs; activeAnimations := act';
       timelines := tls |}.
Proof.
  intros Hwf Hmut Hnodup Hsup Hsub. split.
  - by apply (mutate_wf _ _ Hwf).
  - apply (mutate_persists _ _ Hwf); cbn; [done | done | | done].
    intros h Hin. destruct (wf_active _ Hwf h Hin) as (x & Hx & _).
    by apply (Hsub h x).
Qed.

(** One call from a well-formed state. *)
Lemma exec_step o s :
  wf s → throws o = false →
  ∃ r s',
    exec o s = Ok (r, s') ∧ wf s' ∧ persists s s' ∧
    (is_kill o = false →
       activeAnimations s' =
         activeAnimations s ++
         match r with
         | Some h => if through_animate o then [h] else []
         | None => []
         end) ∧
    (∀ h, r = Some h →
       h = next_id s ∧ h < next_id s' ∧
       if through_animate o then h ∈ activeAnimations s'
       else h ∉ activeAnimations s').
Proof.
  intros Hwf Hthrows.
  pose proof (wf_next_not_active _ Hwf) as Hnot.
  destruct s as [n a c act tls]. cbn in Hnot.
  destruct o as [el properties options|p el options|p el options
                |p els options|name options|name|ctl name| |v|el|h0];
    unfold exec, call_preset, call_sequence, call_stagger, call_control.
  - (* animate *)
    eexists _, _. split; [run; reflexivity|].
    rewrite decide_False by done.
    destruct (tracked_alloc n a c act tls
                (c ++ [GsapTo [el] (animate_config properties options) n])
                (mk_anim Tween [el] (animate_config properties options) None)
                Hwf eq_refl eq_refl) as [Hwf' Hpers].
    split_and!; [done | done | done |].
    intros h [= <-]. cbn. split_and!; [done | lia |].
    apply elem_of_app. right. by apply list_elem_of_singleton.
  - (* the presets written through animate *)
    destruct p; eexists _, _; (split; [run; reflexivity|]);
      rewrite decide_False by done;
      (match goal with
       | |- wf {| next_id := _; anims := <[_ := ?obj]> _; calls := ?cs;
                  activeAnimations := _; timelines := _ |} ∧ _ =>
           destruct (tracked_alloc n a c act tls cs obj Hwf eq_refl eq_refl)
             as [Hwf' Hpers]
       end);
      (split_and!; [done | done | done |]);
      intros h [= <-]; cbn; (split_and!; [done | lia |]);
      apply elem_of_app; right; by apply list_elem_of_singleton.
  - (* shake, pulse *)
    destruct p; eexists _, _; (split; [run; reflexivity|]);
      (match goal with
       | |- wf {| next_id := ?n'; anims := ?a'; calls := ?cs;
                  activeAnimations := _; timelines := _ |} ∧ _ =>
           destruct (untracked_alloc n a c act tls cs n' a' Hwf)
             as [Hwf' Hpers];
           [repeat apply fresh_ext_insert; apply fresh_ext_refl;
            apply (wf_fresh _ Hwf)|]
       end);
      (split_and!; [done | done | intros _; cbn; by rewrite app_nil_r |]);
      intros h [= <-]; cbn; (split_and!; [done | lia | done]).
  - (* the stagger variants *)
    destruct p; eexists _, _; (split; [run; reflexivity|]);
      (match goal with
       | |- wf {| next_id := ?n'; anims := ?a'; calls := ?cs;
                  activeAnimations := _; timelines := _ |} ∧ _ =>
           destruct (untracked_alloc n a c act tls cs n' a' Hwf)
             as [Hwf' Hpers];
           [repeat apply fresh_ext_insert; apply fresh_ext_refl;
            apply (wf_fresh _ Hwf)|]
       end);
      (split_and!; [done | done | intros _; cbn; by rewrite app_nil_r |]);
      intros h [= <-]; cbn; (split_and!; [done | lia | done]).
  - (* createTimeline *)
    eexists _, _. split; [run; reflexivity|].
    destruct (registry_alloc n a c act tls
                (c ++ [GsapTimeline options n]) name
                (mk_anim Timeline [] options None) Hwf eq_refl)
      as [Hwf' Hpers].
    split_and!; [done | done | intros _; cbn; by rewrite app_nil_r |].
    intros h [= <-]. cbn. split_and!; [done | lia | done].
  - (* getTimeline *)
    eexists _, _. split; [run; reflexivity|].
    destruct (mutate_step n a c act tls c a act Hwf) as [Hwf' Hpers];
      [apply mutated_refl | apply (wf_nodup _ Hwf) | done | by left; auto |].
    split_and!; [done | done | intros _; cbn; by rewrite app_nil_r | done].
  - (* play, pause, reverse, restart *)
    destruct (tls !! name) as [tl|] eqn:Hname.
    + pose proof (wf_timelines _ Hwf name tl Hname) as Htimeline.
      cbn in Htimeline.
      destruct ctl; eexists _, _;
        (split; [run; rewrite Hname; reflexivity|]);
        (match goal with
         | |- wf {| next_id := _; anims := ?a'; calls := ?cs;
                    activeAnimations := _; timelines := _ |} ∧ _ =>
             destruct (mutate_step n a c act tls cs a' act Hwf)
               as [Hwf' Hpers];
             [apply mutated_alter_timeline; [by intros x | done]
             | apply (wf_nodup _ Hwf) | done | by left; auto |]
         end);
        (split_and!; [done | done | intros _; cbn; by rewrite app_nil_r | done]).
    + destruct ctl; eexists _, _;
        (split; [run; rewrite Hname; reflexivity|]);
        (destruct (mutate_step n a c act tls c a act Hwf) as [Hwf' Hpers];
         [apply mutated_refl | apply (wf_nodup _ Hwf) | done | by left; auto |]);
        (split_and!; [done | done | intros _; cbn; by rewrite app_nil_r | done]).
  - (* killAll *)
    eexists _, _. split.
    { unfold mbind, M_bind. rewrite killAll_eq. reflexivity. }
    cbn [next_id anims calls activeAnimations timelines].
    destruct (mutate_step n a c act tls
                (c ++ map Kill act ++ [KillTweensOf "*"])
                (kill_star <$> kill_each act a) [] Hwf)
      as [Hwf' Hpers].
    + apply mutated_killAll.
    + apply NoDup_nil_2.
    + intros h Hin. by apply elem_of_nil in Hin.
    + intros h x Hin Hx. right. exists (kill_star (kill_anim x)).
      rewrite lookup_fmap, kill_each_lookup, decide_True, Hx by done.
      split; [done|]. by apply kill_star_keeps_killed.
    + split_and!; [done | done | done | done].
  - (* killAnimation *)
    assert (Hcases : (∃ h0, v = VAnim h0) ∨ (∃ o, v = VObject o true)
                     ∨ truthy v = false).
    { destruct v as [| |b|x|str|f|h0|o [|]];
        first [ by right; right | left; by eexists | right; left; by eexists ]. }
    destruct Hcases as [[h0 ->]|[[o ->]|Hfalsy]].
    2: { eexists _, _. split; [run; reflexivity|].
         destruct (mutate_step n a c act tls (c ++ [KillObject o]) a act Hwf)
           as [Hwf' Hpers];
           [apply mutated_refl | apply (wf_nodup _ Hwf) | done | by left; auto |].
         split_and!; [done | done | done | done]. }
    + eexists _, _. split; [run; reflexivity|].
      destruct (mutate_step n a c act tls (c ++ [Kill h0])
                  (alter kill_anim h0 a) (filter (λ h', h' ≠ h0) act) Hwf)
        as [Hwf' Hpers].
      * apply mutated_alter, stable_kill_anim.
      * apply NoDup_filter, (wf_nodup _ Hwf).
      * intros h Hin. by apply list_elem_of_filter in Hin as [_ ?].
      * intros h x Hin Hx. destruct (decide (h = h0)) as [->|Hne].
        -- right. exists (kill_anim x).
           by rewrite lookup_alter_eq, Hx.
        -- left. by apply list_elem_of_filter.
      * split_and!; [done | done | done | done].
    + eexists _, _. split.
      { unfold killAnimation, mbind, M_bind. rewrite Hfalsy. reflexivity. }
      destruct (mutate_step n a c act tls c a act Hwf) as [Hwf' Hpers];
        [apply mutated_refl | apply (wf_nodup _ Hwf) | done | by left; auto |].
      split_and!; [done | done | done | done].
  - (* resetElement *)
    eexists _, _. split; [run; reflexivity|].
    match goal with
    | |- wf {| next_id := _; anims := _; calls := ?cs;
               activeAnimations := _; timelines := _ |} ∧ _ =>
        destruct (mutate_step n a c act tls cs a act Hwf) as [Hwf' Hpers];
        [apply mutated_refl | apply (wf_nodup _ Hwf) | done | by left; auto |]
    end.
    split_and!; [done | done | intros _; cbn; by rewrite app_nil_r | done].
  - (* the engine completes an animation *)
    eexists _, _. split; [run; unfold engine_completes; run; reflexivity|].
    destruct (mutate_step n a c act tls c (alter complete_anim h0 a) act Hwf)
      as [Hwf' Hpers];
      [apply mutated_alter, stable_complete_anim | apply (wf_nodup _ Hwf)
      | done | by left; auto |].
    split_and!; [done | done | intros _; cbn; by rewrite app_nil_r | done].
Qed.

Lemma exec_ops_cons o ops s :
  exec_ops (o :: ops) s =
    match exec o s with
    | Ok (r, s1) =>
        match exec_ops ops s1 with
        | Ok (rest, s') =>
            Ok (match r with Some h => (o, h) :: rest | None => rest end, s')
        | Throw e => Throw e
        end
    | Throw e => Throw e
    end.
Proof. reflexivity. Qed.

Lemma exec_ops_invariant ops :
  ∀ s, wf s → existsb throws ops = false →
  ∃ produced s',
    exec_ops ops s = Ok (produced, s') ∧ wf s' ∧ persists s s' ∧
    (∀ o (h : handle), (o, h) ∈ produced →
       h < next_id s' ∧
       if through_animate o then h ∈ activeAnimations s' ∨ killed s' h
       else h ∉ activeAnimations s') ∧
    (existsb is_kill ops = false →
       activeAnimations s' =
         activeAnimations s ++ handles_through_animate produced).
Proof.
  induction ops as [|o ops IH]; intros s Hwf Hthrows.
  - exists [], s. split_and!; [done | done | apply persists_refl | |].
    + intros o h Hin. by apply elem_of_nil in Hin.
    + intros _. cbn. by rewrite app_nil_r.
  - cbn in Hthrows. apply orb_false_elim in Hthrows as [Ho Hops].
    destruct (exec_step o s Hwf Ho) as (r & s1 & Hexec & Hwf1 & Hpers1 & Hgrow1 & Hnew).
    destruct (IH s1 Hwf1 Hops) as (rest & s' & Hrest & Hwf' & Hpers & Hacc & Hgrow).
    eexists _, s'. rewrite exec_ops_cons, Hexec, Hrest.
    split; [reflexivity|]. split; [done|].
    split; [by apply (persists_trans s s1 s')|].
    destruct Hpers as (Hle & Hin & Hout). split.
    + intros o' h Hoh. destruct r as [h1|]; [|by apply Hacc].
      apply elem_of_cons in Hoh as [[= -> ->]|Hoh]; [|by apply Hacc].
      destruct (Hnew h1 eq_refl) as (_ & Hlt & Hfact).
      split; [lia|]. destruct (through_animate o).
      * destruct (Hin h1 Hlt (or_introl Hfact)) as [?|(x & Hx & _ & Hk)];
          [by left | right; by exists x].
      * by apply Hout.
    + intros Hkills. cbn in Hkills.
      apply orb_false_elim in Hkills as [Hko Hkops].
      rewrite (Hgrow Hkops), (Hgrow1 Hko), <- app_assoc. f_equal.
      destruct r as [h1|]; [|done]. cbn. by destruct (through_animate o).
Qed.

Lemma wf_s0 : wf s0.
Proof.
  split; cbn.
  - intros h Hsome. rewrite lookup_empty in Hsome. by destruct Hsome.
  - intros h Hin. by apply elem_of_nil in Hin.
  - apply NoDup_nil_2.
  - intros name h Hname. by rewrite lookup_empty in Hname.
Qed.

Lemma throws_is_kill o : throws o = true → is_kill o = true.
Proof. by destruct o. Qed.

Lemma no_kill_no_throw ops :
  existsb is_kill ops = false → existsb throws ops = false.
Proof.
  induction ops as [|o ops IH]; [done|]. cbn.
  intros [Ho Hops]%orb_false_elim. rewrite (IH Hops), orb_false_r.
  destruct (throws o) eqn:Hthrows; [|done].
  by rewrite (throws_is_kill o Hthrows) in Ho.
Qed.

(** From a well-formed state, every script without a throwing call runs to
    its end and leaves a well-formed state: the handles of the active set
    are distinct, and each is an existing tween that is not a step of a
    timeline; the registry holds existing timelines. *)
Theorem calls_keep_state_well_formed ops s :
  wf s → existsb throws ops = false →
  ∃ produced s', exec_ops ops s = Ok (produced, s') ∧ wf s'.
Proof.
  intros Hwf Hthrows.
  destruct (exec_ops_invariant ops s Hwf Hthrows)
    as (produced & s' & Hexec & Hwf' & _).
  by exists produced, s'.
Qed.

(** After any such script, every handle that a call through [animate]
    returned is in the active set or has been killed, and every handle that
    another call returned (a timeline of shake or pulse, a stagger tween, a
    registered timeline) is outside the active set. *)
Theorem calls_account_for_handles ops s :
  wf s → existsb throws ops = false →
  ∃ produced s',
    exec_ops ops s = Ok (produced, s') ∧
    ∀ o (h : handle), (o, h) ∈ produced →
      if through_animate o then h ∈ activeAnimations s' ∨ killed s' h
      else h ∉ activeAnimations s'.
Proof.
  intros Hwf Hthrows.
  destruct (exec_ops_invariant ops s Hwf Hthrows)
    as (produced & s' & Hexec & _ & _ & Hacc & _).
  exists produced, s'. split; [done|].
  intros o h Hin. by apply Hacc.
Qed.

(** [killAll] after any such script leaves the active set empty and every
    handle that a call through [animate] returned killed, whether or not
    the engine had brought the animation to its end. *)
Theorem killAll_after_any_calls ops s :
  wf s → existsb throws ops = false →
  ∃ produced s1 s2,
    exec_ops ops s = Ok (produced, s1) ∧
    killAll s1 = Ok (tt, s2) ∧
    activeAnimations s2 = [] ∧
    ∀ o (h : handle), (o, h) ∈ produced → through_animate o = true →
      killed s2 h.
Proof.
  intros Hwf Hthrows.
  destruct (exec_ops_invariant ops s Hwf Hthrows)
    as (produced & s1 & Hexec & Hwf1 & _ & Hacc & _).
  eexists produced, s1, _. split; [done|]. split; [apply killAll_eq|].
  split; [done|]. intros o h Hin Htracked.
  destruct (Hacc o h Hin) as [_ Hfact]. rewrite Htracked in Hfact.
  unfold killed. cbn. rewrite lookup_fmap, kill_each_lookup.
  destruct Hfact as [Hactive|(x & Hx & Hk)].
  - destruct (wf_active _ Hwf1 h Hactive) as (x & Hx & _).
    rewrite decide_True, Hx by done. eexists. split; [reflexivity|].
    by apply kill_star_keeps_killed.
  - rewrite Hx. case_decide; (eexists; split; [reflexivity|]);
      by apply kill_star_keeps_killed.
Qed.

(** Without [killAll] and [killAnimation] the active set only grows: after
    the script it is the set before, followed by the handles returned by the
    calls through [animate], in the order of the calls.  An animation that
    has run to its end is not taken out. *)
Theorem active_set_grows_by_tracked_calls ops s :
  wf s → existsb is_kill ops = false →
  ∃ produced s',
    exec_ops ops s = Ok (produced, s') ∧
    activeAnimations s' =
      activeAnimations s ++ handles_through_animate produced.
Proof.
  intros Hwf Hkills.
  destruct (exec_ops_invariant ops s Hwf (no_kill_no_throw ops Hkills))
    as (produced & s' & Hexec & _ & _ & _ & Hgrow).
  exists produced, s'. split; [done | by apply Hgrow].
Qed.

(** ** The registry along sequences of calls *)

Ltac run_hyp H :=
  lazy beta iota zeta delta
    [animate fadeIn fadeOut slideUp slideDown slideLeft slideRight scaleUp
     scaleDown rotateIn rotateOut bounceIn elastic flip shake pulse
     staggerFadeIn staggerSlideUp staggerScale createTimeline getTimeline
     playTimeline pauseTimeline reverseTimeline restartTimeline
     killAnimation resetElement engine_completes
     gsap_set gsap_to gsap_timeline timeline_to new_anim log set_anims
     anim_kill anim_play anim_pause anim_reverse
     anim_restart activeAnimations_add activeAnimations_delete
     timelines_set timelines_get throw mbind mret M_bind M_ret
     next_id anims calls activeAnimations timelines] in H.

Lemma exec_timelines o s r s' :
  exec o s = Ok (r, s') →
  timelines s' =
    match o with
    | OpCreateTimeline name _ => <[name := next_id s]> (timelines s)
    | _ => timelines s
    end.
Proof.
  destruct s as [n a c act tls].
  destruct o as [el properties options|p el options|p el options
                |p els options|name options|name|ctl name| |v|el|h0];
    unfold exec, call_preset, call_sequence, call_stagger, call_control;
    intros Hexec.
  - run_hyp Hexec. by injection Hexec as _ <-.
  - destruct p; run_hyp Hexec; by injection Hexec as _ <-.
  - destruct p; run_hyp Hexec; by injection Hexec as _ <-.
  - destruct p; run_hyp Hexec; by injection Hexec as _ <-.
  - run_hyp Hexec. by injection Hexec as _ <-.
  - run_hyp Hexec. by injection Hexec as _ <-.
  - destruct ctl; run_hyp Hexec; destruct (tls !! name);
      run_hyp Hexec; by injection Hexec as _ <-.
  - unfold mbind, M_bind in Hexec. rewrite killAll_eq in Hexec.
    run_hyp Hexec. by injection Hexec as _ <-.
  - unfold killAnimation, mbind, M_bind in Hexec.
    destruct (truthy v);
      [destruct v as [| |b|x|str|f|h0|o [|]]; try discriminate Hexec|];
      run_hyp Hexec; by injection Hexec as _ <-.
  - run_hyp Hexec. by injection Hexec as _ <-.
  - run_hyp Hexec. by injection Hexec as _ <-.
Qed.

(** Nothing takes a name out of the registry, and only [createTimeline] on
    that name changes what the name refers to: after [killAll], or after
    [killAnimation] on a registered timeline, [getTimeline] still returns
    it. *)
Theorem registry_changes_only_by_createTimeline ops s produced s' name :
  exec_ops ops s = Ok (produced, s') →
  (is_Some (timelines s !! name) → is_Some (timelines s' !! name)) ∧
  (existsb (creates name) ops = false →
   timelines s' !! name = timelines s !! name).
Proof.
  revert s produced. induction ops as [|o ops IH]; intros s produced Hexec.
  - cbn in Hexec. by injection Hexec as _ <-.
  - rewrite exec_ops_cons in Hexec.
    destruct (exec o s) as [[r s1]|e] eqn:Ho; [|discriminate Hexec].
    destruct (exec_ops ops s1) as [[rest s2]|e] eqn:Hops; [|discriminate Hexec].
    injection Hexec as _ <-.
    destruct (IH s1 rest Hops) as [Hkeep Hsame].
    pose proof (exec_timelines o s r s1 Ho) as Htls.
    split.
    + intros Hsome. apply Hkeep. rewrite Htls.
      destruct o; try done.
      rewrite lookup_insert. by case_decide.
    + cbn. intros [Ho' Hops']%orb_false_elim.
      rewrite (Hsame Hops'), Htls. destruct o; try done.
      cbn in Ho'. apply String.eqb_neq in Ho'.
      by rewrite lookup_insert_ne.
Qed.

(** ** [scrollTrigger] *)

(** Without the plugin [scrollTrigger] warns and creates nothing.  With it,
    the object handed to [ScrollTrigger.create] holds, under every key of
    the options, the value of the options, whatever the key and the value:
    an [onEnter] or a [trigger] among the options replaces the callback and
    the element of the call, and a falsy [start], [end] or [markers] is
    passed on as it is.  Under the other keys it holds the element, start
    "top 80%", end "bottom 20%", the callback and markers false. *)
Theorem scrollTrigger_options_win element animation (options : object) :
  scrollTrigger false element animation options =
    Warned "ScrollTrigger plugin not loaded. Install: npm install gsap" ∧
  ∃ vars,
    scrollTrigger true element animation options = Created vars ∧
    ∀ k,
      vars !! k =
        match options !! k with
        | Some v => Some (TvValue v)
        | None => scrollTrigger_defaults element animation !! k
        end.
Proof.
  split; [reflexivity|]. eexists. split; [reflexivity|].
  intros k. rewrite lookup_union, lookup_fmap.
  destruct (options !! k) as [v|] eqn:Hk; cbn.
  - match goal with |- Some _ ∪ ?o = _ => by destruct o end.
  - assert (Hget : get options k = VUndefined) by (unfold get; by rewrite Hk).
    match goal with
    | |- None ∪ ?o = _ =>
        assert (Hsame : o = scrollTrigger_defaults element animation !! k)
    end.
    { unfold scrollTrigger_defaults. rewrite !lookup_insert, !lookup_singleton.
      repeat case_decide; subst; rewrite ?Hget; reflexivity. }
    rewrite Hsame.
    by destruct (scrollTrigger_defaults element animation !! k).
Qed.

(** ** Runs on sample inputs *)

Example slideDown_distance_30 :
  ∃ s' config,
    slideDown el_attached {[ "distance" := JInt 30 ]} s0 = Ok (0, s') ∧
    calls s' = [ GsapSet [el_attached]
                   {[ "y" := JInt (-30); "opacity" := JInt 0 ]};
                 GsapTo [el_attached] config 0 ] ∧
    activeAnimations s' = [0].
Proof. eexists _, _. split_and!; vm_compute; reflexivity. Qed.

Example shake_intensity_5_duration_2 :
  ∃ s',
    shake el_attached {[ "intensity" := JInt 5; "duration" := JInt 2 ]} s0
      = Ok (0, s') ∧
    calls s' =
      [ GsapTimeline ∅ 0;
        TimelineTo 0 [el_attached] {[ "x" := JInt (-5); "duration" := JDec 1 10 ]} 1;
        TimelineTo 0 [el_attached] {[ "x" := JInt 5; "duration" := JDec 1 10 ]} 2;
        TimelineTo 0 [el_attached] {[ "x" := JInt (-5); "duration" := JDec 1 10 ]} 3;
        TimelineTo 0 [el_attached] {[ "x" := JInt 5; "duration" := JDec 1 10 ]} 4;
        TimelineTo 0 [el_attached] {[ "x" := JInt 0; "duration" := JDec 1 10 ]} 5 ].
Proof. eexists. split; vm_compute; reflexivity. Qed.

(** A falsy intensity, such as 0, is replaced by the default. *)
Example shake_intensity_0 :
  shake el_attached {[ "intensity" := JInt 0 ]} s0 = shake el_attached ∅ s0.
Proof. vm_compute. reflexivity. Qed.

(** A tracked animation is killed by [killAll] also after it has run to its
    end. *)
Example killAll_after_completed_fadeIn :
  ∃ h s1 s2 s3,
    fadeIn el_detached ∅ s0 = Ok (h, s1) ∧
    engine_completes h s1 = Ok (tt, s2) ∧
    killAll s2 = Ok (tt, s3) ∧
    activeAnimations s3 = [] ∧
    a_completed <$> (anims s3 !! h) = Some true ∧
    a_killed <$> (anims s3 !! h) = Some true.
Proof.
  eexists _, _, _, _. split; [vm_compute; reflexivity|].
  split; [vm_compute; reflexivity|].
  split; [vm_compute; reflexivity|]. split_and!; reflexivity.
Qed.

(** [restartTimeline] on a registered timeline that has been killed puts it
    back to play. *)
Example restartTimeline_after_kill :
  ∃ s1 s2,
    killAnimation (VAnim 0) s_intro = Ok (tt, s1) ∧
    a_killed <$> (anims s1 !! 0) = Some true ∧
    restartTimeline "intro" s1 = Ok (tt, s2) ∧
    a_killed <$> (anims s2 !! 0) = Some false ∧
    timelines s2 !! "intro" = Some 0.
Proof.
  eexists _, _. split; [vm_compute; reflexivity|].
  split; [reflexivity|]. split; [vm_compute; reflexivity|].
  split; reflexivity.
Qed.

Example killAll_after_fadeIn :
  ∃ h s1 s2,
    fadeIn el_detached ∅ s0 = Ok (h, s1) ∧
    killAll s1 = Ok (tt, s2) ∧
    activeAnimations s2 = [] ∧
    a_killed <$> (anims s2 !! h) = Some true.
Proof.
  eexists _, _, _. split; [vm_compute; reflexivity|].
  split; [vm_compute; reflexivity|]. split; reflexivity.
Qed.

End GSAPAnimationLibrary.

(** ** Closed instances *)

(** C2, as stated, fails.  With [onStart] both in the raw properties and in
    the options, the engine receives the callback of the options, where the
    claimed merge has the one of the raw properties; and the configuration
    has [onComplete], as null, where the claimed merge has no such key. *)
Lemma animate_options_callback_wins :
  ∃ s' config,
    animate el_attached {[ "opacity" := JInt 1; "onStart" := VFun 1 ]}
      {[ "onStart" := VFun 2 ]} s0 = Ok (0, s') ∧
    calls s' = [GsapTo [el_attached] config 0] ∧
    config !! "onStart" = Some (VFun 2) ∧
    documented_config {[ "opacity" := JInt 1; "onStart" := VFun 1 ]}
      {[ "onStart" := VFun 2 ]} !! "onStart" = Some (VFun 1) ∧
    config !! "onComplete" = Some VNull ∧
    documented_config {[ "opacity" := JInt 1; "onStart" := VFun 1 ]}
      {[ "onStart" := VFun 2 ]} !! "onComplete" = None ∧
    config ≠ documented_config {[ "opacity" := JInt 1; "onStart" := VFun 1 ]}
               {[ "onStart" := VFun 2 ]}.
Proof.
  eexists _, _.
  split; [apply animate_eq|]. cbn.
  split; [reflexivity|].
  repeat (split; [vm_compute; reflexivity|]).
  intros Heq.
  apply (f_equal (λ m : object, m !! "onStart")) in Heq.
  vm_compute in Heq. discriminate Heq.
Qed.

(** C3, as stated, fails.  Without a distance option, staggerSlideUp sets
    the initial offset 50 and slideUp sets the initial offset 100. *)
Lemma staggerSlideUp_default_offset_is_50 :
  ∃ s1 config1 s2 config2,
    staggerSlideUp [el_attached] ∅ s0 = Ok (0, s1) ∧
    calls s1 = [ GsapSet [el_attached]
                   {[ "y" := JInt 50; "opacity" := JInt 0 ]};
                 GsapTo [el_attached] config1 0 ] ∧
    slideUp el_attached ∅ s0 = Ok (0, s2) ∧
    calls s2 = [ GsapSet [el_attached]
                   {[ "y" := JInt 100; "opacity" := JInt 0 ]};
                 GsapTo [el_attached] config2 0 ] ∧
    ({[ "y" := JInt 50; "opacity" := JInt 0 ]} : object)
      ≠ {[ "y" := JInt 100; "opacity" := JInt 0 ]}.
Proof.
  eexists _, _, _, _.
  split; [reflexivity|]. split; [reflexivity|].
  split; [reflexivity|]. split; [reflexivity|].
  intros Heq. apply (f_equal (λ m : object, m !! "y")) in Heq.
  vm_compute in Heq. discriminate Heq.
Qed.

(** C7 on a registry that knows intro and not outro. *)
Lemma control_of_unknown_timeline_is_noop_witness :
  timelines s_intro !! "outro" = None ∧
  (playTimeline (λ _ _, true) "outro" s_intro = Ok (tt, s_intro) ∧
   pauseTimeline "outro" s_intro = Ok (tt, s_intro) ∧
   reverseTimeline (λ _ _, true) "outro" s_intro = Ok (tt, s_intro) ∧
   restartTimeline "outro" s_intro = Ok (tt, s_intro)).
Proof.
  split; [reflexivity|].
  apply (control_of_unknown_timeline_is_noop (λ _ _, true) "outro" s_intro).
  reflexivity.
Defined.

(** C8 on an active set of two tweens. *)
Lemma killAnimation_removes_exactly_witness :
  0 ∈ activeAnimations s_two ∧
  ∃ s',
    killAnimation (VAnim 0) s_two = Ok (tt, s') ∧
    (0 ∉ activeAnimations s') ∧
    anims s' !! 0 = (kill_anim <$> anims s_two !! 0) ∧
    (∀ h', h' ≠ 0 →
       (h' ∈ activeAnimations s' ↔ h' ∈ activeAnimations s_two) ∧
       anims s' !! h' = anims s_two !! h') ∧
    calls s' = calls s_two ++ [Kill 0] ∧
    timelines s' = timelines s_two.
Proof.
  split; [apply list_elem_of_here|].
  apply (killAnimation_removes_exactly 0 s_two). apply list_elem_of_here.
Defined.

(** The timeline registered in [s_intro] is not in the active set. *)
Lemma killAnimation_untracked_witness :
  (0 ∉ activeAnimations s_intro) ∧
  ∃ s',
    killAnimation (VAnim 0) s_intro = Ok (tt, s') ∧
    activeAnimations s' = activeAnimations s_intro ∧
    anims s' !! 0 = (kill_anim <$> anims s_intro !! 0) ∧
    (∀ h', h' ≠ 0 → anims s' !! h' = anims s_intro !! h') ∧
    calls s' = calls s_intro ++ [Kill 0] ∧
    timelines s' = timelines s_intro.
Proof.
  split; [apply not_elem_of_nil|].
  apply (killAnimation_untracked 0 s_intro). apply not_elem_of_nil.
Defined.

(** Pausing the timeline registered under intro. *)
Lemma control_of_registered_timeline_witness :
  timelines s_intro !! "intro" = Some 0 ∧
  ∃ s',
    call_control (λ _ _, true) CPause "intro" s_intro = Ok (tt, s') ∧
    calls s' = calls s_intro ++ [control_call CPause 0] ∧
    timelines s' = timelines s_intro ∧
    activeAnimations s' = activeAnimations s_intro ∧
    next_id s' = next_id s_intro ∧
    (∀ h, h ≠ 0 → anims s' !! h = anims s_intro !! h) ∧
    (∀ a, anims s_intro !! 0 = Some a →
       ∃ a', anims s' !! 0 = Some a' ∧ a_kind a' = a_kind a).
Proof.
  split; [reflexivity|].
  apply (control_of_registered_timeline (λ _ _, true) CPause "intro" 0 s_intro).
  reflexivity.
Defined.

(** The sample script on a new instance. *)
Lemma calls_keep_state_well_formed_witness :
  wf s0 ∧ existsb throws sample_script = false ∧
  ∃ produced s',
    exec_ops (λ _ _, true) (λ _, NaN) sample_script s0 = Ok (produced, s') ∧ wf s'.
Proof.
  split; [apply wf_s0|]. split; [reflexivity|].
  apply (calls_keep_state_well_formed (λ _ _, true) (λ _, NaN) sample_script s0 wf_s0).
  reflexivity.
Defined.

Lemma calls_account_for_handles_witness :
  wf s0 ∧ existsb throws sample_script = false ∧
  ∃ produced s',
    exec_ops (λ _ _, true) (λ _, NaN) sample_script s0 = Ok (produced, s') ∧
    ∀ o (h : handle), (o, h) ∈ produced →
      if through_animate o then h ∈ activeAnimations s' ∨ killed s' h
      else h ∉ activeAnimations s'.
Proof.
  split; [apply wf_s0|]. split; [reflexivity|].
  apply (calls_account_for_handles (λ _ _, true) (λ _, NaN) sample_script s0 wf_s0).
  reflexivity.
Defined.

Lemma killAll_after_any_calls_witness :
  wf s0 ∧ existsb throws sample_script = false ∧
  ∃ produced s1 s2,
    exec_ops (λ _ _, true) (λ _, NaN) sample_script s0 = Ok (produced, s1) ∧
    killAll s1 = Ok (tt, s2) ∧
    activeAnimations s2 = [] ∧
    ∀ o (h : handle), (o, h) ∈ produced → through_animate o = true →
      killed s2 h.
Proof.
  split; [apply wf_s0|]. split; [reflexivity|].
  apply (killAll_after_any_calls (λ _ _, true) (λ _, NaN) sample_script s0 wf_s0).
  reflexivity.
Defined.

Lemma active_set_grows_by_tracked_calls_witness :
  wf s0 ∧ existsb is_kill sample_script = false ∧
  ∃ produced s',
    exec_ops (λ _ _, true) (λ _, NaN) sample_script s0 = Ok (produced, s') ∧
    activeAnimations s' =
      activeAnimations s0 ++ handles_through_animate produced.
Proof.
  split; [apply wf_s0|]. split; [reflexivity|].
  apply (active_set_grows_by_tracked_calls (λ _ _, true) (λ _, NaN) sample_script s0 wf_s0).
  reflexivity.
Defined.

(** In [s_intro] the name intro is registered.  The script kills a tween,
    restarts intro, registers outro and calls [killAll]; intro still refers
    to the same timeline afterwards. *)
Lemma registry_changes_only_by_createTimeline_witness :
  ∃ produced s',
    exec_ops (λ _ _, true) (λ _, NaN) kill_script s_intro
      = Ok (produced, s') ∧
    is_Some (timelines s_intro !! "intro") ∧
    existsb (creates "intro") kill_script = false ∧
    is_Some (timelines s' !! "intro") ∧
    timelines s' !! "intro" = timelines s_intro !! "intro" ∧
    timelines s' !! "intro" = Some 0.
Proof.
  destruct (exec_ops (λ _ _, true) (λ _, NaN) kill_script s_intro)
    as [[produced s']|e] eqn:Hexec; [|vm_compute in Hexec; discriminate Hexec].
  exists produced, s'. split; [reflexivity|].
  destruct (registry_changes_only_by_createTimeline (λ _ _, true)
              (λ _, NaN) kill_script s_intro produced s' "intro" Hexec)
    as [Hkeep Hsame].
  assert (Hsome : is_Some (timelines s_intro !! "intro")) by (by eexists).
  split; [exact Hsome|]. split; [reflexivity|].
  split; [exact (Hkeep Hsome)|]. split; [exact (Hsame eq_refl)|].
  etrans; [exact (Hsame eq_refl) | reflexivity].
Defined.

(** C9, as stated, fails.  With a distance of 0 among the options, slideUp
    starts at offset 100 and slideDown at offset -100, not at 0. *)
Lemma slide_distance_zero_starts_at_100 :
  ∃ s1 config1 s2 config2,
    get {[ "distance" := JInt 0 ]} "distance" = JInt 0 ∧
    slideUp el_attached {[ "distance" := JInt 0 ]} s0 = Ok (0, s1) ∧
    calls s1 = [ GsapSet [el_attached]
                   {[ "y" := JInt 100; "opacity" := JInt 0 ]};
                 GsapTo [el_attached] config1 0 ] ∧
    slideDown (λ _, NaN) el_attached {[ "distance" := JInt 0 ]} s0
      = Ok (0, s2) ∧
    calls s2 = [ GsapSet [el_attached]
                   {[ "y" := JInt (-100); "opacity" := JInt 0 ]};
                 GsapTo [el_attached] config2 0 ] ∧
    ({[ "y" := JInt 100; "opacity" := JInt 0 ]} : object)
      ≠ {[ "y" := JInt 0; "opacity" := JInt 0 ]}.
Proof.
  eexists _, _, _, _.
  split; [reflexivity|].
  split; [vm_compute; reflexivity|]. split; [vm_compute; reflexivity|].
  split; [vm_compute; reflexivity|]. split; [vm_compute; reflexivity|].
  intros Heq. apply (f_equal (λ m : object, m !! "y")) in Heq.
  vm_compute in Heq. discriminate Heq.
Qed.
